(** * blur: a P3 PPM reader, 5x5 Gaussian blur and P3 writer (src/blur.c)

    A shallow embedding of [src/blur.c].  The input file is the list of
    characters still to be read, [int] and [long long] values are integers
    of [Z] with their two's-complement wrap-around written out, the
    [malloc]ed buffers are lists addressed by index, and every
    [error_exit] is a value of [result]. *)

From Stdlib Require Import ZArith Lia Ascii String.
From stdpp Require Import base list.

Open Scope Z_scope.

(** ** Machine integers *)

Definition wrap (bits : Z) (x : Z) : Z :=
  (x + 2 ^ (bits - 1)) mod 2 ^ bits - 2 ^ (bits - 1).

(** [int] is 32 bits wide and [long long] 64. *)
Definition to_int (x : Z) : Z := wrap 32 x.
Definition to_ll (x : Z) : Z := wrap 64 x.

Definition INT_MAX : Z := 2147483647.
Definition INT_MIN : Z := -2147483648.
Definition LLONG_MAX : Z := 9223372036854775807.
Definition LLONG_MIN : Z := -9223372036854775808.

Definition is_int (x : Z) : Prop := INT_MIN <= x <= INT_MAX.
Definition is_ll (x : Z) : Prop := LLONG_MIN <= x <= LLONG_MAX.

(** ** Characters and streams *)

Definition stream : Type := list ascii.

Definition code (c : ascii) : Z := Z.of_N (N_of_ascii c).
Definition chr (n : Z) : ascii := ascii_of_N (Z.to_N n).

Definition NL : ascii := chr 10.
Definition SP : ascii := chr 32.
Definition HASH : ascii := chr 35.
Definition PLUS : ascii := chr 43.
Definition MINUS : ascii := chr 45.

(** [isspace] in the "C" locale: space, and \t \n \v \f \r. *)
Definition isspace (c : ascii) : bool :=
  (code c =? 32) || ((9 <=? code c) && (code c <=? 13)).

Definition isdigit (c : ascii) : bool :=
  (48 <=? code c) && (code c <=? 57).

Definition digit_val (c : ascii) : Z := code c - 48.
Definition digit_chr (d : Z) : ascii := chr (48 + d).

Definition str (s : string) : stream := list_ascii_of_string s.

(** ** Errors

    Every fatal condition of the program is one [error_exit] call; the
    constructors carry the names of the specification's taxonomy and
    [error_message] gives the text the program prints. *)

Inductive error : Type :=
  | CouldNotReadHeader
  | UnsupportedFormat
  | TruncatedHeader
  | InvalidDimensions
  | InvalidMaxValue
  | ImageTooLarge
  | OutOfMemory
  | UnexpectedEndOfData
  | PixelOutOfRange
  | MalformedInteger
  | InvalidAccess.

Definition error_message (e : error) : string :=
  match e with
  | CouldNotReadHeader => "Could not read PPM header"
  | UnsupportedFormat => "Only P3 PPM format is supported"
  | TruncatedHeader => "Missing width/height/maxval"
  | InvalidDimensions => "Width and height must be positive"
  | InvalidMaxValue => "Max color value must be 1..65535"
  | ImageTooLarge => "Image too large"
  | OutOfMemory => "Out of memory"
  | UnexpectedEndOfData => "Unexpected EOF in pixel data"
  | PixelOutOfRange => "Pixel value out of range"
  | MalformedInteger => "Bad integer in file"
  | InvalidAccess => "(access outside a buffer: no message, undefined in C)"
  end.

Inductive result (A : Type) : Type :=
  | Ok (a : A)
  | Err (e : error).
Arguments Ok {A} a.
Arguments Err {A} e.

Definition bind {A B : Type} (m : result A) (k : A -> result B) : result B :=
  match m with
  | Ok a => k a
  | Err e => Err e
  end.

Declare Scope result_scope.
Delimit Scope result_scope with result.
Notation "'let*' x := m 'in' k" := (bind m (fun x => k))
  (at level 10, x pattern, m at level 100, k at level 200) : result_scope.
Open Scope result_scope.

Definition of_option {A : Type} (e : error) (o : option A) : result A :=
  match o with
  | Some a => Ok a
  | None => Err e
  end.

(** ** The tokenizer: [read_int] *)

(** The skipping loop of [read_int] (lines 27-43).  [None] is the
    [return 0] at end of file; [Some s] is the stream positioned at the
    first character of a token (the character that was pushed back by
    [ungetc]).  The inner [fix] is the comment loop of line 35. *)
Fixpoint skip_blanks (s : stream) : option stream :=
  match s with
  | [] => None
  | c :: s' =>
      if isspace c then skip_blanks s'
      else if Ascii.eqb c HASH then
        (fix skip_line (t : stream) : option stream :=
           match t with
           | [] => None
           | d :: t' => if Ascii.eqb d NL then skip_blanks t' else skip_line t'
           end) s'
      else Some s
  end.

(** The digits of a [%d] conversion: [acc] is [None] until a first digit
    has been read. *)
Fixpoint scan_digits (acc : option Z) (s : stream) : option Z * stream :=
  match s with
  | c :: s' =>
      if isdigit c
      then scan_digits (Some (10 * default 0 acc + digit_val c)) s'
      else (acc, s)
  | [] => (acc, [])
  end.

Fixpoint skip_spaces (s : stream) : stream :=
  match s with
  | c :: s' => if isspace c then skip_spaces s' else s
  | [] => []
  end.

(** What [%d] stores for the number [x] that the digits and the sign
    denote.  ISO C leaves a number outside [int] undefined; the C library
    converts as [strtol] does, to a [long] that saturates at [LONG_MIN]
    and [LONG_MAX], and stores the low 32 bits of it. *)
Definition saturate_long (x : Z) : Z :=
  if x >? LLONG_MAX then LLONG_MAX
  else if x <? LLONG_MIN then LLONG_MIN
  else x.

Definition store_int (x : Z) : Z := to_int (saturate_long x).

(** [fscanf(fp, "%d", out)]: leading white space, an optional sign, then
    at least one digit; the conversion stops at the first character that
    is not a digit and leaves it in the stream.  [None] is a return value
    other than 1. *)
Definition fscanf_d (s : stream) : option (Z * stream) :=
  let s0 := skip_spaces s in
  let '(neg, s1) :=
    match s0 with
    | c :: t =>
        if Ascii.eqb c MINUS then (true, t)
        else if Ascii.eqb c PLUS then (false, t)
        else (false, s0)
    | [] => (false, s0)
    end in
  match scan_digits None s1 with
  | (Some n, s2) => Some (store_int (if neg then - n else n), s2)
  | (None, _) => None
  end.

(** [read_int]: [Ok (None, _)] is the return value 0 (end of file),
    [Ok (Some v, s')] the return value 1 with [*out = v]. *)
Definition read_int (s : stream) : result (option Z * stream) :=
  match skip_blanks s with
  | None => Ok (None, [])
  | Some s1 =>
      match fscanf_d s1 with
      | Some (v, s2) => Ok (Some v, s2)
      | None => Err MalformedInteger
      end
  end.

Definition clamp (v lo hi : Z) : Z :=
  if v <? lo then lo else if v >? hi then hi else v.

(** ** Buffers

    A [malloc]ed array of [int] is a list; an access outside of it, which
    is undefined in C, is the error [InvalidAccess]. *)

Definition load (buf : list Z) (i : Z) : result Z :=
  if (0 <=? i) && (i <? Z.of_nat (length buf))
  then of_option InvalidAccess (buf !! Z.to_nat i)
  else Err InvalidAccess.

Definition store (buf : list Z) (i : Z) (v : Z) : result (list Z) :=
  if (0 <=? i) && (i <? Z.of_nat (length buf))
  then Ok (<[Z.to_nat i := v]> buf)
  else Err InvalidAccess.

(** What one [malloc] call returns: [None] is the null pointer, [Some f]
    a block of the requested size whose cell [i] holds [f i] until it is
    written. *)
Definition malloc (mem : option (nat -> Z)) (n : Z) : option (list Z) :=
  match mem with
  | Some f => Some (map f (seq 0 (Z.to_nat n)))
  | None => None
  end.

(** ** Counted loops

    [for (i = lo; i < hi; i++) body], with the loop state passed
    explicitly; an [error_exit] in the body leaves the loop. *)
Fixpoint for_loop {St : Type} (n : nat) (i : Z)
    (body : Z -> St -> result St) (st : St) : result St :=
  match n with
  | O => Ok st
  | S n' => let* st' := body i st in for_loop n' (i + 1) body st'
  end.

Definition for_range {St : Type} (lo hi : Z)
    (body : Z -> St -> result St) (st : St) : result St :=
  for_loop (Z.to_nat (hi - lo)) lo body st.

(** ** The header (lines 70-83) *)

Record image : Type := Image {
  width : Z;
  height : Z;
  max_value : Z;
  channels : list Z
}.

(** [fscanf(in, "%2s", magic)]: white space is skipped, then at most two
    characters that are not white space are read. *)
Definition fscanf_2s (s : stream) : option (list ascii * stream) :=
  match skip_spaces s with
  | [] => None
  | a :: t =>
      match t with
      | b :: t' => if isspace b then Some ([a], t) else Some ([a; b], t')
      | [] => Some ([a], [])
      end
  end.

(** The C string held by a character array: it ends at the first NUL. *)
Fixpoint c_string (l : list ascii) : list ascii :=
  match l with
  | c :: l' => if code c =? 0 then [] else c :: c_string l'
  | [] => []
  end.

Fixpoint strcmp_eq (a b : list ascii) : bool :=
  match a, b with
  | [], [] => true
  | x :: a', y :: b' => Ascii.eqb x y && strcmp_eq a' b'
  | _, _ => false
  end.

(** [read_int] where the caller exits with [e] on a return value of 0. *)
Definition need_int (e : error) (s : stream) : result (Z * stream) :=
  let* r := read_int s in
  match r with
  | (Some v, s') => Ok (v, s')
  | (None, _) => Err e
  end.

Definition MAX_VALS : Z := 200000000.

(** [nvals = (long long)w * (long long)h * 3LL] *)
Definition nvals_of (w h : Z) : Z := to_ll (to_ll (w * h) * 3).

(** The checks of lines 79-83; the value is [nvals]. *)
Definition check_header (w h maxv : Z) : result Z :=
  if (w <=? 0) || (h <=? 0) then Err InvalidDimensions
  else if (maxv <=? 0) || (maxv >? 65535) then Err InvalidMaxValue
  else
    let nvals := nvals_of w h in
    if (nvals <=? 0) || (nvals >? MAX_VALS) then Err ImageTooLarge
    else Ok nvals.

Definition read_header (s : stream) : result (Z * Z * Z * stream) :=
  let* (magic, s) := of_option CouldNotReadHeader (fscanf_2s s) in
  if negb (strcmp_eq (c_string magic) (str "P3")) then Err UnsupportedFormat
  else
    let* (w, s) := need_int TruncatedHeader s in
    let* (h, s) := need_int TruncatedHeader s in
    let* (maxv, s) := need_int TruncatedHeader s in
    let* _ := check_header w h maxv in
    Ok (w, h, maxv, s).

(** ** The pixel loader (lines 90-95) *)

(** The body of the loop: the state is the buffer and the stream. *)
Definition read_pixel_step (maxv : Z) (i : Z) (st : list Z * stream)
    : result (list Z * stream) :=
  let '(pix, s) := st in
  let* r := read_int s in
  match r with
  | (None, _) => Err UnexpectedEndOfData
  | (Some v, s') =>
      if (v <? 0) || (v >? maxv) then Err PixelOutOfRange
      else let* pix' := store pix i v in Ok (pix', s')
  end.

Definition read_pixels (nvals maxv : Z) (pix : list Z) (s : stream)
    : result (list Z * stream) :=
  for_range 0 nvals (read_pixel_step maxv) (pix, s).

(** ** The blur (lines 98-130) *)

Definition K : list (list Z) :=
  [ [1; 2; 3; 2; 1];
    [2; 4; 6; 4; 2];
    [3; 6; 9; 6; 3];
    [2; 4; 6; 4; 2];
    [1; 2; 3; 2; 1] ].

Definition K_at (r c : Z) : Z := nth (Z.to_nat c) (nth (Z.to_nat r) K []) 0.

Definition KSUM : Z := 81.

(** The two kernel loops of lines 112-121: the value of [acc] when they
    are left. *)
Definition accumulate (w h : Z) (pix : list Z) (y x ch : Z) : result Z :=
  for_range (-2) 3
    (fun ky acc =>
       let sy := clamp (to_int (y + ky)) 0 (to_int (h - 1)) in
       for_range (-2) 3
         (fun kx acc =>
            let sx := clamp (to_int (x + kx)) 0 (to_int (w - 1)) in
            let kval := K_at (to_int (ky + 2)) (to_int (kx + 2)) in
            let idx := to_ll (to_ll (to_ll (to_ll (sy * w) + sx) * 3) + ch) in
            let* p := load pix idx in
            Ok (to_ll (acc + to_ll (kval * p))))
         acc)
    0.

(** Lines 112-125: the value stored for channel [ch] of pixel [(x, y)]. *)
Definition blur_pixel (w h maxv : Z) (pix : list Z) (y x ch : Z) : result Z :=
  let* acc := accumulate w h pix y x ch in
  let val := to_int (Z.quot (to_ll (acc + Z.quot KSUM 2)) KSUM) in
  Ok (clamp val 0 maxv).

(** The three pixel loops of lines 109-130 around a per-channel
    computation [pixel]. *)
Definition blur_loops (w h : Z) (pixel : Z -> Z -> Z -> result Z)
    (outpix : list Z) : result (list Z) :=
  for_range 0 h
    (fun y outpix =>
       for_range 0 w
         (fun x outpix =>
            for_range 0 3
              (fun ch outpix =>
                 let* val := pixel y x ch in
                 let out_idx :=
                   to_ll (to_ll (to_ll (to_ll (y * w) + x) * 3) + ch) in
                 store outpix out_idx val)
              outpix)
         outpix)
    outpix.

Definition blur (w h maxv : Z) (pix outpix : list Z) : result (list Z) :=
  blur_loops w h (blur_pixel w h maxv pix) outpix.

(** ** The serializer (lines 136-147) *)

Fixpoint digits_fuel (fuel : nat) (n : Z) (acc : list ascii) : list ascii :=
  match fuel with
  | O => acc
  | S fuel' =>
      let acc' := digit_chr (n mod 10) :: acc in
      if n <? 10 then acc' else digits_fuel fuel' (n / 10) acc'
  end.

(** The decimal digits of [n >= 0], most significant first. *)
Definition print_nat (n : Z) : list ascii :=
  digits_fuel (S (Z.to_nat (Z.log2 n))) n [].

(** [fprintf(out, "%d", v)] *)
Definition print_int (v : Z) : list ascii :=
  if v <? 0 then MINUS :: print_nat (- v) else print_nat v.

(** [fprintf(out, "P3\n%d %d\n%d\n", w, h, maxv)] *)
Definition print_header (w h maxv : Z) : list ascii :=
  str "P3" ++ [NL] ++ print_int w ++ [SP] ++ print_int h ++ [NL]
  ++ print_int maxv ++ [NL].

Definition per_line : Z := 15.

(** The body of the loop of lines 141-146; the state is the text written
    so far and [count]. *)
Definition print_value_step (outpix : list Z) (i : Z)
    (st : list ascii * Z) : result (list ascii * Z) :=
  let '(out, count) := st in
  let* v := load outpix i in
  let out := out ++ print_int v in
  let count := to_int (count + 1) in
  if Z.rem count per_line =? 0 then Ok (out ++ [NL], count)
  else Ok (out ++ [SP], count).

(** Lines 140-147. *)
Definition print_values (nvals : Z) (outpix : list Z) (out : list ascii)
    : result (list ascii) :=
  let* (out, count) :=
    for_range 0 nvals (print_value_step outpix) (out, 0) in
  if negb (Z.rem count per_line =? 0) then Ok (out ++ [NL]) else Ok out.

Definition serialize (img : image) : result (list ascii) :=
  print_values (nvals_of (width img) (height img)) (channels img)
    (print_header (width img) (height img) (max_value img)).

(** ** The program *)

Section Program.

(** What the two [malloc] calls of lines 85-86 return. *)
Variables pix_mem out_mem : option (nat -> Z).

(** Lines 67-96: the input file as an image, and the output buffer. *)
Definition read_image (input : stream) : result (image * list Z) :=
  let* (w, h, maxv, s) := read_header input in
  let nvals := nvals_of w h in
  match malloc pix_mem nvals, malloc out_mem nvals with
  | Some pix, Some outpix =>
      let* (pix, _) := read_pixels nvals maxv pix s in
      Ok (Image w h maxv pix, outpix)
  | _, _ => Err OutOfMemory
  end.

(** Lines 98-130: the blurred image. *)
Definition blur_image (img : image) (outpix : list Z) : result image :=
  let* outpix :=
    blur (width img) (height img) (max_value img) (channels img) outpix in
  Ok (Image (width img) (height img) (max_value img) outpix).

(** [main], from the contents of the input file to the contents of the
    output file. *)
Definition main (input : stream) : result (list ascii) :=
  let* (img, outpix) := read_image input in
  let* out := blur_image img outpix in
  serialize out.

End Program.

(** ** The convolution without its final clamp

    [blur_pixel] with line 125 removed, for the comparison with [blur]. *)
Definition blur_pixel_noclamp (w h : Z) (pix : list Z) (y x ch : Z)
    : result Z :=
  let* acc := accumulate w h pix y x ch in
  Ok (to_int (Z.quot (to_ll (acc + Z.quot KSUM 2)) KSUM)).

Definition blur_noclamp (w h : Z) (pix outpix : list Z) : result (list Z) :=
  blur_loops w h (blur_pixel_noclamp w h pix) outpix.

(** ** The specification's data model and reference convolution *)

(** The flat index of channel [c] of pixel [(x, y)]. *)
Definition pixel_index (w x y c : Z) : Z := (y * w + x) * 3 + c.

Definition in_range (maxv v : Z) : Prop := 0 <= v <= maxv.

(** An image the program holds in memory: the invariant of the data model
    together with the size guard of the header parser. *)
Record valid_image (img : image) : Prop := ValidImage {
  valid_width : 0 < width img;
  valid_height : 0 < height img;
  valid_max_value : 1 <= max_value img <= 65535;
  valid_size : width img * height img * 3 <= MAX_VALS;
  valid_length :
    length (channels img) = Z.to_nat (width img * height img * 3);
  valid_channels : Forall (in_range (max_value img)) (channels img)
}.

(** The kernel offsets [-2 .. 2] and the weight of an offset pair. *)
Definition offsets : list Z := [-2; -1; 0; 1; 2].

Definition weight (kx ky : Z) : Z := K_at (ky + 2) (kx + 2).

Definition sumZ {A : Type} (f : A -> Z) (l : list A) : Z :=
  foldr (fun a acc => f a + acc) 0 l.

(** [input[sy, sx, c]] *)
Definition input_at (w : Z) (pix : list Z) (sy sx c : Z) : Z :=
  default 0 (pix !! Z.to_nat (pixel_index w sx sy c)).

(** The sum over the kernel offsets [(kx, ky)] in [-2,2] x [-2,2]. *)
Definition reference_acc (w h : Z) (pix : list Z) (x y c : Z) : Z :=
  sumZ (fun '(kx, ky) =>
          weight kx ky
          * input_at w pix (clamp (y + ky) 0 (h - 1))
                           (clamp (x + kx) 0 (w - 1)) c)
       (list_prod offsets offsets).

(** [(accumulator + divisor/2) / divisor], not yet clamped. *)
Definition reference_rounded (w h : Z) (pix : list Z) (x y c : Z) : Z :=
  (reference_acc w h pix x y c + 81 / 2) / 81.

Definition reference_pixel (w h maxv : Z) (pix : list Z) (x y c : Z) : Z :=
  clamp (reference_rounded w h pix x y c) 0 maxv.

(** The coordinates of a flat index. *)
Definition y_of (w i : Z) : Z := i / 3 / w.
Definition x_of (w i : Z) : Z := (i / 3) mod w.
Definition c_of (i : Z) : Z := i mod 3.

(** The sum of [t i], [t (i+1)], ... [t (i+n-1)]. *)
Fixpoint sum_range (n : nat) (i : Z) (t : Z -> Z) : Z :=
  match n with
  | O => 0
  | S n' => t i + sum_range n' (i + 1) t
  end.

Definition is_offset (k : Z) : Prop := -2 <= k <= 2.

(** The term that one pass through the innermost kernel loop adds to
    [acc]. *)
Definition term (w h : Z) (pix : list Z) (x y c ky kx : Z) : Z :=
  weight kx ky
  * input_at w pix (clamp (y + ky) 0 (h - 1)) (clamp (x + kx) 0 (w - 1)) c.

(** [out] holds [g i] at every index [i] below [k]. *)
Definition written (w h : Z) (g : Z -> Z) (k : Z) (out : list Z) : Prop :=
  length out = Z.to_nat (w * h * 3)
  /\ forall i : nat, Z.of_nat i < k -> out !! i = Some (g (Z.of_nat i)).

(** The output of the reference definition at a flat index. *)
Definition reference_flat (w h maxv : Z) (pix : list Z) (i : Z) : Z :=
  reference_pixel w h maxv pix (x_of w i) (y_of w i) (c_of i).

(** ** Reading and writing token sequences *)

(** The rest of a comment line: the stream after its newline, [None] when
    the file ends first. *)
Fixpoint skip_comment (t : stream) : option stream :=
  match t with
  | [] => None
  | d :: t' => if Ascii.eqb d NL then Some t' else skip_comment t'
  end.

(** [reads s vs s']: successive [read_int] calls on [s] return the
    integers [vs], in this order, and leave the stream [s']. *)
Inductive reads : stream -> list Z -> stream -> Prop :=
  | reads_nil (s : stream) : reads s [] s
  | reads_cons (s s1 s2 : stream) (v : Z) (vs : list Z) :
      read_int s = Ok (Some v, s1) -> reads s1 vs s2 ->
      reads s (v :: vs) s2.

(** A stream at which a [%d] conversion stops. *)
Definition ends_token (q : stream) : bool :=
  match q with
  | [] => true
  | c :: _ => negb (isdigit c)
  end.

Definition starts_with_digit (s : stream) : bool :=
  match s with
  | [] => false
  | c :: _ => isdigit c
  end.

(** The character written after the token that brings [count] to its
    new value (lines 144-145). *)
Definition separator (count : Z) : ascii :=
  if count mod per_line =? 0 then NL else SP.

(** The text of the values [vals], the first of them being token number
    [count + 1]: each token is followed by its separator. *)
Fixpoint values_text (count : Z) (vals : list Z) : list ascii :=
  match vals with
  | [] => []
  | v :: vs =>
      print_int v ++ separator (count + 1) :: values_text (count + 1) vs
  end.

(** The text after the header: the tokens with their separators, and the
    newline of line 147. *)
Definition body_text (vals : list Z) : list ascii :=
  values_text 0 vals
  ++ (if Z.of_nat (length vals) mod per_line =? 0 then [] else [NL]).

(** The layout in the specification's words: lines of 15 tokens, the
    tokens of a line separated by one space, every line ended by a
    newline. *)
Fixpoint join_space (toks : list (list ascii)) : list ascii :=
  match toks with
  | [] => []
  | [t] => t
  | t :: ts => t ++ SP :: join_space ts
  end.

Fixpoint chunks_fuel {A : Type} (fuel n : nat) (l : list A) : list (list A) :=
  match fuel with
  | O => []
  | S fuel' =>
      match l with
      | [] => []
      | _ => take n l :: chunks_fuel fuel' n (drop n l)
      end
  end.

Definition chunks {A : Type} (n : nat) (l : list A) : list (list A) :=
  chunks_fuel (length l) n l.

Definition specified_body (vals : list Z) : list ascii :=
  concat (map (fun line => join_space (map print_int line) ++ [NL])
              (chunks 15 vals)).

(** The layout that is written: as [specified_body], but a last line of
    fewer than 15 tokens has a space before its newline. *)
Definition line_end (line : list Z) : list ascii :=
  if (length line =? 15)%nat then [NL] else [SP; NL].

Definition written_body (vals : list Z) : list ascii :=
  concat (map (fun line => join_space (map print_int line) ++ line_end line)
              (chunks 15 vals)).

(** ** Comments between tokens *)

(** A comment with the text [c], from its [#] to its newline. *)
Definition comment (c : list ascii) : list ascii := HASH :: c ++ [NL].

Definition no_newline (c : list ascii) : Prop :=
  Forall (fun ch => Ascii.eqb ch NL = false) c.

(** Whether the end of [p] lies inside a comment; [st] tells whether its
    start does. *)
Fixpoint in_comment (st : bool) (p : stream) : bool :=
  match p with
  | [] => st
  | ch :: p' =>
      if st then in_comment (negb (Ascii.eqb ch NL)) p'
      else in_comment (Ascii.eqb ch HASH) p'
  end.

Fixpoint ends_blank (p : stream) : bool :=
  match p with
  | [] => false
  | [ch] => isspace ch
  | _ :: p' => ends_blank p'
  end.

Definition starts_blank (q : stream) : bool :=
  match q with
  | [] => true
  | ch :: _ => isspace ch
  end.

(** The place between [p] and [q] is between two tokens: it is the start
    of the stream, or white space (or the end of the stream) is next to
    it. *)
Definition between_tokens (p q : stream) : Prop :=
  p = [] \/ ends_blank p = true \/ starts_blank q = true.

(** How a sequence of [read_int] calls ends. *)
Inductive stop : Type :=
  | Complete
  | EndOfFile
  | Malformed.

(** The integers that [n] calls of [read_int] return, up to the first
    call that does not return one. *)
Fixpoint read_tokens (n : nat) (s : stream) : list Z * stop :=
  match n with
  | O => ([], Complete)
  | S n' =>
      match read_int s with
      | Ok (Some v, s') =>
          let '(vs, e) := read_tokens n' s' in (v :: vs, e)
      | Ok (None, _) => ([], EndOfFile)
      | Err _ => ([], Malformed)
      end
  end.

(** Two streams that differ by the comment [c] in front of [q], at a
    place between two tokens, or not at all. *)
Definition related (c : list ascii) (q : stream) (t1 t2 : stream) : Prop :=
  t1 = t2
  \/ exists p,
       t1 = p ++ comment c ++ q /\ t2 = p ++ q
       /\ in_comment false p = false /\ between_tokens p q.

(** The same result, up to [related] streams. *)
Definition same_result {A : Type} (c : list ascii) (q : stream)
    (r1 r2 : result (A * stream)) : Prop :=
  match r1, r2 with
  | Ok (a1, t1), Ok (a2, t2) => a1 = a2 /\ related c q t1 t2
  | Err e1, Err e2 => e1 = e2
  | _, _ => False
  end.

(** The same, for streams positioned at the first character of a
    token. *)
Definition token_related (c : list ascii) (q : stream) (t1 t2 : stream)
    : Prop :=
  t1 = t2
  \/ exists ch p,
       t1 = ch :: p ++ comment c ++ q /\ t2 = ch :: p ++ q
       /\ isspace ch = false /\ Ascii.eqb ch HASH = false
       /\ in_comment false p = false /\ between_tokens (ch :: p) q.

Definition skip_related (c : list ascii) (q : stream)
    (o1 o2 : option stream) : Prop :=
  match o1, o2 with
  | Some t1, Some t2 => token_related c q t1 t2
  | None, None => True
  | _, _ => False
  end.

(** ** White space and comments in front of a token *)

(** A stream made of white space and complete comments only. *)
Inductive skippable : stream -> Prop :=
  | skippable_nil : skippable []
  | skippable_space (ch : ascii) (s : stream) :
      isspace ch = true -> skippable s -> skippable (ch :: s)
  | skippable_comment (c : list ascii) (s : stream) :
      no_newline c -> skippable s -> skippable (comment c ++ s).

(** The same, possibly followed by a comment that the end of the file
    cuts before its newline. *)
Definition blank_to_end (s : stream) : Prop :=
  skippable s
  \/ exists b c, s = b ++ HASH :: c /\ skippable b /\ no_newline c.

(** The digits of the token that starts with [ch]: after its sign, if it
    has one. *)
Definition after_sign (ch : ascii) (s : stream) : stream :=
  if Ascii.eqb ch MINUS || Ascii.eqb ch PLUS then s else ch :: s.

(** ** The kernel as a product *)

(** The one-dimensional weights 1 2 3 2 1 of the offsets [-2 .. 2]. *)
Definition kernel1 (k : Z) : Z := 3 - Z.abs k.

(** An image of [n] pixels that all have the colour [(r, g, b)]. *)
Definition uniform_color (n : nat) (r g b : Z) : list Z :=
  concat (replicate n [r; g; b]).

(** ** The process: [main (argc, argv)] with its files (lines 58-68 and
    132-152) *)

(** What a run leaves behind: the exit status, the text on [stderr], and
    the contents of the output file when it has been opened for
    writing. *)
Record outcome : Type := Outcome {
  status : Z;
  stderr : list ascii;
  out_file : option (list ascii)
}.

(** [error_exit (msg)] (lines 7-10). *)
Definition error_exit (msg : string) : outcome :=
  Outcome 1 (str "Error: " ++ str msg ++ [NL]) None.

(** [error_errno (msg)] (lines 12-15); [reason] is [strerror (errno)]. *)
Definition error_errno (msg reason : string) : outcome :=
  Outcome 1 (str "Error: " ++ str msg ++ str ": " ++ str reason ++ [NL])
    None.

Section Process.

(** [fopen (path, "rb")]: the contents of the file, or the reason of the
    failure; [fopen (path, "wb")]: [None], or the reason of the
    failure. *)
Variable fopen_in : string -> stream + string.
Variable fopen_out : string -> option string.

(** What the output file holds once the program has written a text to it
    and closed it: the text itself when every write succeeds, and less
    when the disk is full or the file may not grow.  The results of
    [fprintf] and [fclose] are not looked at (lines 136-149). *)
Variable stored : list ascii -> list ascii.

Variables pix_mem out_mem : option (nat -> Z).

(** [main], from its arguments to what it leaves behind.  [argv] holds
    the program name and the arguments, so that [argc] is its length. *)
Definition run (argv : list string) : outcome :=
  match argv with
  | [_; in_path; out_path] =>
      match fopen_in in_path with
      | inr reason => error_errno "Could not open input file" reason
      | inl input =>
          match
            (let* (img, outpix) := read_image pix_mem out_mem input in
             blur_image img outpix)
          with
          | Err e => error_exit (error_message e)
          | Ok out =>
              match fopen_out out_path with
              | Some reason =>
                  error_errno "Could not open output file" reason
              | None =>
                  match serialize out with
                  | Ok text => Outcome 0 [] (Some (stored text))
                  | Err e => error_exit (error_message e)
                  end
              end
          end
      end
  | _ =>
      Outcome 2 (str "Error: Usage: blur input.ppm output.ppm" ++ [NL]) None
  end.

End Process.

(** What holds of every run; [out_file] is [Some] when the output file
    has been opened for writing. *)
Definition outcome_ok (argv : list string) (o : outcome) : Prop :=
  (status o = 2 <-> length argv <> 3%nat)
  /\ (status o = 0 \/ status o = 1 \/ status o = 2)
  /\ (status o = 0 <-> exists text, out_file o = Some text)
  /\ (status o = 0 <-> stderr o = [])
  /\ (status o <> 0 -> exists msg, stderr o = str "Error: " ++ msg ++ [NL]).

(** * Properties *)

(** ** Machine integers *)

Lemma wrap_small (bits x : Z) :
  0 < bits -> - 2 ^ (bits - 1) <= x < 2 ^ (bits - 1) -> wrap bits x = x.
Proof.
  intros Hb Hx. unfold wrap.
  assert (H2 : 2 ^ bits = 2 * 2 ^ (bits - 1)).
  { replace bits with (Z.succ (bits - 1)) at 1 by lia.
    rewrite Z.pow_succ_r by lia. reflexivity. }
  rewrite Z.mod_small by lia. lia.
Qed.

Lemma to_int_small (x : Z) : is_int x -> to_int x = x.
Proof.
  unfold is_int, INT_MIN, INT_MAX, to_int. intros H.
  apply wrap_small; [lia|]. change (2 ^ (32 - 1)) with 2147483648. lia.
Qed.

Lemma to_ll_small (x : Z) : is_ll x -> to_ll x = x.
Proof.
  unfold is_ll, LLONG_MIN, LLONG_MAX, to_ll. intros H.
  apply wrap_small; [lia|].
  change (2 ^ (64 - 1)) with 9223372036854775808. lia.
Qed.

Lemma store_int_small (x : Z) : is_int x -> store_int x = x.
Proof.
  intros H. unfold store_int, saturate_long.
  assert (Hll : LLONG_MIN <= x <= LLONG_MAX)
    by (unfold is_int, INT_MIN, INT_MAX, LLONG_MIN, LLONG_MAX in *; lia).
  destruct (Z.gtb_spec x LLONG_MAX); [lia|].
  destruct (Z.ltb_spec x LLONG_MIN); [lia|].
  apply to_int_small. exact H.
Qed.

Lemma clamp_bounds (v lo hi : Z) : lo <= hi -> lo <= clamp v lo hi <= hi.
Proof.
  intros H. unfold clamp.
  destruct (Z.ltb_spec v lo); [lia|].
  destruct (Z.gtb_spec v hi); lia.
Qed.

Lemma clamp_id (v lo hi : Z) : lo <= v <= hi -> clamp v lo hi = v.
Proof.
  intros H. unfold clamp.
  destruct (Z.ltb_spec v lo); [lia|].
  destruct (Z.gtb_spec v hi); lia.
Qed.

(** ** Counted loops *)

Lemma for_loop_inv {St : Type} (P : Z -> St -> Prop)
    (body : Z -> St -> result St) (n : nat) (i : Z) (st : St) :
  P i st ->
  (forall j s, i <= j < i + Z.of_nat n -> P j s ->
     exists s', body j s = Ok s' /\ P (j + 1) s') ->
  exists s', for_loop n i body st = Ok s' /\ P (i + Z.of_nat n) s'.
Proof.
  revert i st. induction n as [|n IH]; intros i st HP Hstep.
  - exists st. split; [reflexivity|]. replace (i + Z.of_nat 0) with i by lia.
    exact HP.
  - destruct (Hstep i st) as (s1 & Hb & HP1); [lia|exact HP|].
    destruct (IH (i + 1) s1) as (s2 & Hl & HP2); [exact HP1| |].
    + intros j s Hj. apply Hstep. lia.
    + exists s2. split.
      * cbn [for_loop]. rewrite Hb. exact Hl.
      * replace (i + Z.of_nat (S n)) with (i + 1 + Z.of_nat n) by lia.
        exact HP2.
Qed.

Lemma for_range_inv {St : Type} (P : Z -> St -> Prop)
    (body : Z -> St -> result St) (lo hi : Z) (st : St) :
  lo <= hi ->
  P lo st ->
  (forall j s, lo <= j < hi -> P j s ->
     exists s', body j s = Ok s' /\ P (j + 1) s') ->
  exists s', for_range lo hi body st = Ok s' /\ P hi s'.
Proof.
  intros Hle HP Hstep. unfold for_range.
  destruct (for_loop_inv P body (Z.to_nat (hi - lo)) lo st HP)
    as (s' & Hl & HP').
  - intros j s Hj. apply Hstep. lia.
  - exists s'. split; [exact Hl|].
    replace hi with (lo + Z.of_nat (Z.to_nat (hi - lo))) by lia. exact HP'.
Qed.

Lemma for_loop_ext {St : Type} (body1 body2 : Z -> St -> result St)
    (n : nat) (i : Z) (st : St) :
  (forall j s, i <= j < i + Z.of_nat n -> body1 j s = body2 j s) ->
  for_loop n i body1 st = for_loop n i body2 st.
Proof.
  revert i st. induction n as [|n IH]; intros i st H; [reflexivity|].
  cbn [for_loop]. rewrite H by lia. destruct (body2 i st); [|reflexivity].
  cbn [bind]. apply IH. intros j s Hj. apply H. lia.
Qed.

(** A loop that adds [t j] to its state at step [j], as long as the sum
    stays below [M]. *)
Lemma for_loop_sum (body : Z -> Z -> result Z) (t : Z -> Z) (B M : Z)
    (n : nat) (i a : Z) :
  (forall j, i <= j < i + Z.of_nat n -> 0 <= t j <= B) ->
  (forall j acc, i <= j < i + Z.of_nat n -> 0 <= acc -> acc + B <= M ->
     body j acc = Ok (acc + t j)) ->
  0 <= a -> a + Z.of_nat n * B <= M ->
  for_loop n i body a = Ok (a + sum_range n i t).
Proof.
  revert i a. induction n as [|n IH]; intros i a Ht Hb Ha HM.
  - cbn. f_equal. lia.
  - cbn [for_loop sum_range].
    assert (Hti : 0 <= t i <= B) by (apply Ht; lia).
    assert (HnB : 0 <= Z.of_nat n * B) by (apply Z.mul_nonneg_nonneg; lia).
    rewrite Hb by lia. cbn [bind].
    rewrite IH.
    + f_equal. lia.
    + intros j Hj. apply Ht. lia.
    + intros j acc Hj. apply Hb. lia.
    + lia.
    + lia.
Qed.

Lemma sum_range_bounds (t : Z -> Z) (B : Z) (n : nat) (i : Z) :
  (forall j, i <= j < i + Z.of_nat n -> 0 <= t j <= B) ->
  0 <= sum_range n i t <= Z.of_nat n * B.
Proof.
  revert i. induction n as [|n IH]; intros i Ht; cbn [sum_range]; [lia|].
  assert (0 <= t i <= B) by (apply Ht; lia).
  assert (0 <= sum_range n (i + 1) t <= Z.of_nat n * B).
  { apply IH. intros j Hj. apply Ht. lia. }
  lia.
Qed.

(** ** The convolution *)

Ltac range_tac :=
  unfold is_int, is_ll, INT_MIN, INT_MAX, LLONG_MIN, LLONG_MAX, MAX_VALS in *;
  lia.

Lemma load_in_range (buf : list Z) (i : Z) :
  0 <= i < Z.of_nat (length buf) ->
  load buf i = Ok (default 0 (buf !! Z.to_nat i)).
Proof.
  intros Hi. unfold load.
  destruct (Z.leb_spec 0 i); [|lia].
  destruct (Z.ltb_spec i (Z.of_nat (length buf))); [|lia].
  cbn [andb].
  destruct (lookup_lt_is_Some_2 buf (Z.to_nat i)) as [v Hv]; [lia|].
  rewrite Hv. reflexivity.
Qed.

Lemma store_in_range (buf : list Z) (i v : Z) :
  0 <= i < Z.of_nat (length buf) ->
  store buf i v = Ok (<[Z.to_nat i := v]> buf).
Proof.
  intros Hi. unfold store.
  destruct (Z.leb_spec 0 i); [|lia].
  destruct (Z.ltb_spec i (Z.of_nat (length buf))); [|lia].
  reflexivity.
Qed.

Lemma weight_bounds (kx ky : Z) :
  -2 <= kx <= 2 -> -2 <= ky <= 2 -> 1 <= weight kx ky <= 9.
Proof.
  intros Hx Hy.
  assert (Ex : kx = -2 \/ kx = -1 \/ kx = 0 \/ kx = 1 \/ kx = 2) by lia.
  assert (Ey : ky = -2 \/ ky = -1 \/ ky = 0 \/ ky = 1 \/ ky = 2) by lia.
  destruct Ex as [->|[->|[->|[->| ->]]]];
    destruct Ey as [->|[->|[->|[->| ->]]]]; vm_compute; split; discriminate.
Qed.

Lemma sumZ_weighted_bounds {A : Type} (P : A -> Prop) (wt g : A -> Z)
    (m : Z) (l : list A) :
  Forall P l ->
  (forall a, P a -> 0 <= wt a) ->
  (forall a, P a -> 0 <= g a <= m) ->
  0 <= sumZ (fun a => wt a * g a) l <= sumZ wt l * m.
Proof.
  intros HP Hwt Hg. induction HP as [|a l Ha HP IH]; cbn; [lia|].
  specialize (Hwt a Ha). specialize (Hg a Ha).
  fold (sumZ (fun a => wt a * g a) l). fold (sumZ wt l). nia.
Qed.

Lemma sumZ_ext {A : Type} (P : A -> Prop) (f g : A -> Z) (l : list A) :
  Forall P l -> (forall a, P a -> f a = g a) -> sumZ f l = sumZ g l.
Proof.
  intros HP Hfg. induction HP as [|a l Ha HP IH]; cbn; [reflexivity|].
  fold (sumZ f l). fold (sumZ g l). rewrite (Hfg a Ha), IH. reflexivity.
Qed.

Lemma sumZ_scale {A : Type} (wt : A -> Z) (v : Z) (l : list A) :
  sumZ (fun a => wt a * v) l = sumZ wt l * v.
Proof.
  induction l as [|a l IH]; cbn; [reflexivity|].
  fold (sumZ (fun a => wt a * v) l). fold (sumZ wt l). lia.
Qed.

Lemma offsets_in_range :
  Forall (fun p : Z * Z => is_offset (fst p) /\ is_offset (snd p))
    (list_prod offsets offsets).
Proof. unfold is_offset. repeat constructor; cbn; lia. Qed.

(** The weights of the kernel sum to the divisor. *)
Lemma kernel_sum :
  sumZ (fun p : Z * Z => weight (fst p) (snd p)) (list_prod offsets offsets)
  = KSUM.
Proof. reflexivity. Qed.

Lemma coords_of_index (w x y c : Z) :
  0 <= x < w -> 0 <= c < 3 ->
  x_of w (pixel_index w x y c) = x /\ y_of w (pixel_index w x y c) = y
  /\ c_of (pixel_index w x y c) = c.
Proof.
  intros Hx Hc. unfold x_of, y_of, c_of, pixel_index.
  assert (E3 : ((y * w + x) * 3 + c) / 3 = y * w + x).
  { rewrite Z.add_comm, Z.div_add by lia. rewrite Z.div_small by lia. lia. }
  rewrite E3. repeat split.
  - rewrite Z.add_comm, Z.mod_add by lia. apply Z.mod_small. lia.
  - rewrite Z.add_comm, Z.div_add by lia. rewrite Z.div_small by lia. lia.
  - rewrite Z.add_comm, Z.mod_add by lia. apply Z.mod_small. lia.
Qed.

Lemma index_of_coords (w i : Z) :
  0 < w -> 0 <= i ->
  pixel_index w (x_of w i) (y_of w i) (c_of i) = i
  /\ 0 <= x_of w i < w /\ 0 <= c_of i < 3 /\ 0 <= y_of w i.
Proof.
  intros Hw Hi. unfold x_of, y_of, c_of, pixel_index.
  pose proof (Z.div_mod i 3 ltac:(lia)) as E1.
  pose proof (Z.div_mod (i / 3) w ltac:(lia)) as E2.
  pose proof (Z.mod_pos_bound i 3 ltac:(lia)).
  pose proof (Z.mod_pos_bound (i / 3) w Hw).
  assert (0 <= i / 3) by (apply Z.div_pos; lia).
  assert (0 <= i / 3 / w) by (apply Z.div_pos; lia).
  repeat split; lia.
Qed.

Section Convolution.

Variables (w h maxv : Z) (pix : list Z).
Hypothesis Hvalid : valid_image (Image w h maxv pix).

Local Abbreviation term := (term w h pix).
Local Abbreviation written := (written w h).
Local Abbreviation reference_flat := (reference_flat w h maxv pix).

Let Hw : 0 < w := valid_width _ Hvalid.
Let Hh : 0 < h := valid_height _ Hvalid.
Let Hsize : w * h * 3 <= MAX_VALS := valid_size _ Hvalid.

Lemma dims_small : w <= MAX_VALS /\ h <= MAX_VALS.
Proof. unfold MAX_VALS in *. nia. Qed.

Lemma pixel_index_bounds (x y c : Z) :
  0 <= x < w -> 0 <= y < h -> 0 <= c < 3 ->
  0 <= pixel_index w x y c < w * h * 3.
Proof. unfold pixel_index. nia. Qed.

Lemma index_no_wrap (x y c : Z) :
  0 <= x < w -> 0 <= y < h -> 0 <= c < 3 ->
  to_ll (to_ll (to_ll (to_ll (y * w) + x) * 3) + c) = pixel_index w x y c.
Proof.
  intros Hx Hy Hc.
  pose proof (pixel_index_bounds x y c Hx Hy Hc) as Hi.
  unfold pixel_index in *. unfold MAX_VALS in *.
  assert (0 <= y * w <= 200000000) by nia.
  rewrite (to_ll_small (y * w)) by (unfold is_ll, LLONG_MIN, LLONG_MAX; lia).
  rewrite (to_ll_small (y * w + x)) by (unfold is_ll, LLONG_MIN, LLONG_MAX; lia).
  rewrite (to_ll_small ((y * w + x) * 3)) by (unfold is_ll, LLONG_MIN, LLONG_MAX; lia).
  apply to_ll_small. unfold is_ll, LLONG_MIN, LLONG_MAX; lia.
Qed.

Let Hmaxv : 1 <= maxv <= 65535 := valid_max_value _ Hvalid.
Let Hlen : length pix = Z.to_nat (w * h * 3) := valid_length _ Hvalid.
Let Hpix : Forall (in_range maxv) pix := valid_channels _ Hvalid.

Lemma input_at_range (x y c : Z) :
  0 <= x < w -> 0 <= y < h -> 0 <= c < 3 ->
  in_range maxv (input_at w pix y x c).
Proof.
  intros Hx Hy Hc. unfold input_at.
  pose proof (pixel_index_bounds x y c Hx Hy Hc) as Hi.
  destruct (lookup_lt_is_Some_2 pix (Z.to_nat (pixel_index w x y c)))
    as [v Hv]; [lia|].
  rewrite Hv. cbn. exact (proj1 (Forall_lookup _ _) Hpix _ _ Hv).
Qed.

Lemma load_pix (x y c : Z) :
  0 <= x < w -> 0 <= y < h -> 0 <= c < 3 ->
  load pix (pixel_index w x y c) = Ok (input_at w pix y x c).
Proof.
  intros Hx Hy Hc. unfold input_at. apply load_in_range.
  pose proof (pixel_index_bounds x y c Hx Hy Hc). lia.
Qed.

Lemma term_bounds (x y c ky kx : Z) :
  0 <= x < w -> 0 <= y < h -> 0 <= c < 3 ->
  -2 <= ky <= 2 -> -2 <= kx <= 2 ->
  0 <= term x y c ky kx <= 9 * maxv.
Proof.
  intros Hx Hy Hc Hky Hkx. unfold term.
  pose proof (weight_bounds kx ky Hkx Hky) as Hwt.
  pose proof (clamp_bounds (y + ky) 0 (h - 1) ltac:(lia)) as Hsy.
  pose proof (clamp_bounds (x + kx) 0 (w - 1) ltac:(lia)) as Hsx.
  pose proof (input_at_range (clamp (x + kx) 0 (w - 1))
                (clamp (y + ky) 0 (h - 1)) c ltac:(lia) ltac:(lia) Hc) as Hin.
  unfold in_range in Hin. nia.
Qed.

Lemma kernel_step (x y c ky kx acc : Z) :
  0 <= x < w -> 0 <= y < h -> 0 <= c < 3 ->
  -2 <= ky <= 2 -> -2 <= kx <= 2 ->
  0 <= acc -> acc + 9 * maxv <= 225 * maxv ->
  (let sy := clamp (to_int (y + ky)) 0 (to_int (h - 1)) in
   let sx := clamp (to_int (x + kx)) 0 (to_int (w - 1)) in
   let kval := K_at (to_int (ky + 2)) (to_int (kx + 2)) in
   let idx := to_ll (to_ll (to_ll (to_ll (sy * w) + sx) * 3) + c) in
   let* p := load pix idx in
   Ok (to_ll (acc + to_ll (kval * p))))
  = Ok (acc + term x y c ky kx).
Proof.
  intros Hx Hy Hc Hky Hkx Hacc HM. cbv zeta.
  pose proof dims_small as [Hws Hhs].
  rewrite !to_int_small by range_tac.
  pose proof (clamp_bounds (y + ky) 0 (h - 1) ltac:(lia)) as Hsy.
  pose proof (clamp_bounds (x + kx) 0 (w - 1) ltac:(lia)) as Hsx.
  rewrite index_no_wrap by lia.
  rewrite load_pix by lia. cbn [bind].
  pose proof (term_bounds x y c ky kx Hx Hy Hc Hky Hkx) as Ht.
  unfold term, weight in *.
  rewrite (to_ll_small (_ * _)) by range_tac.
  rewrite to_ll_small by range_tac. reflexivity.
Qed.

Lemma accumulate_sum (x y c : Z) :
  0 <= x < w -> 0 <= y < h -> 0 <= c < 3 ->
  accumulate w h pix y x c
  = Ok (sum_range 5 (-2) (fun ky => sum_range 5 (-2) (term x y c ky))).
Proof.
  intros Hx Hy Hc. unfold accumulate, for_range.
  change (Z.to_nat (3 - -2)) with 5%nat.
  rewrite (for_loop_sum _ (fun ky => sum_range 5 (-2) (term x y c ky))
             (45 * maxv) (225 * maxv)); [f_equal| | |lia|lia].
  - intros ky Hky.
    replace (45 * maxv) with (Z.of_nat 5 * (9 * maxv)) by lia.
    apply sum_range_bounds. intros kx Hkx. apply term_bounds; lia.
  - intros ky acc Hky Hacc HM.
    rewrite (for_loop_sum _ (term x y c ky) (9 * maxv) (225 * maxv));
      [reflexivity| | |lia|lia].
    + intros kx Hkx. apply term_bounds; lia.
    + intros kx a Hkx Ha HMa. apply kernel_step; lia.
Qed.

Lemma sum_range_reference (x y c : Z) :
  sum_range 5 (-2) (fun ky => sum_range 5 (-2) (term x y c ky))
  = reference_acc w h pix x y c.
Proof.
  unfold reference_acc, offsets, term. cbn -[weight input_at clamp Z.mul Z.add].
  change (-2 + 1 + 1 + 1 + 1) with 2. change (-2 + 1 + 1 + 1) with 1.
  change (-2 + 1 + 1) with 0. change (-2 + 1) with (-1). ring.
Qed.

Lemma reference_acc_bounds (x y c : Z) :
  0 <= x < w -> 0 <= y < h -> 0 <= c < 3 ->
  0 <= reference_acc w h pix x y c <= KSUM * maxv.
Proof.
  intros Hx Hy Hc. unfold reference_acc.
  rewrite <- kernel_sum.
  rewrite (sumZ_ext _ _
    (fun p => weight (fst p) (snd p)
              * input_at w pix (clamp (y + snd p) 0 (h - 1))
                  (clamp (x + fst p) 0 (w - 1)) c) _ offsets_in_range)
    by (intros [kx ky] _; reflexivity).
  apply (sumZ_weighted_bounds _ _ _ _ _ offsets_in_range).
  - intros [kx ky] [Hkx Hky]. cbn [fst snd] in *. unfold is_offset in *.
    pose proof (weight_bounds kx ky Hkx Hky). lia.
  - intros [kx ky] [Hkx Hky]. cbn [fst snd] in *. unfold is_offset in *.
    pose proof (clamp_bounds (y + ky) 0 (h - 1) ltac:(lia)).
    pose proof (clamp_bounds (x + kx) 0 (w - 1) ltac:(lia)).
    apply input_at_range; lia.
Qed.

Lemma reference_rounded_range (x y c : Z) :
  0 <= x < w -> 0 <= y < h -> 0 <= c < 3 ->
  in_range maxv (reference_rounded w h pix x y c).
Proof.
  intros Hx Hy Hc. unfold reference_rounded, in_range.
  pose proof (reference_acc_bounds x y c Hx Hy Hc) as Hb.
  unfold KSUM in Hb. change (81 / 2) with 40. split.
  - apply Z.div_pos; lia.
  - apply Z.lt_succ_r. apply Z.div_lt_upper_bound; lia.
Qed.

Lemma rounded_no_wrap (acc : Z) :
  0 <= acc <= KSUM * maxv ->
  to_int (Z.quot (to_ll (acc + Z.quot KSUM 2)) KSUM) = (acc + 81 / 2) / 81.
Proof.
  intros Hb. unfold KSUM in *.
  change (Z.quot 81 2) with 40. change (81 / 2) with 40.
  assert (0 <= (acc + 40) / 81 <= maxv).
  { split; [apply Z.div_pos; lia|].
    apply Z.lt_succ_r. apply Z.div_lt_upper_bound; lia. }
  rewrite (to_ll_small (acc + 40)) by range_tac.
  rewrite Z.quot_div_nonneg by lia.
  apply to_int_small. range_tac.
Qed.

Lemma blur_pixel_noclamp_reference (x y c : Z) :
  0 <= x < w -> 0 <= y < h -> 0 <= c < 3 ->
  blur_pixel_noclamp w h pix y x c = Ok (reference_rounded w h pix x y c).
Proof.
  intros Hx Hy Hc. unfold blur_pixel_noclamp.
  rewrite accumulate_sum, sum_range_reference by assumption. cbn [bind].
  rewrite rounded_no_wrap by (apply reference_acc_bounds; assumption).
  reflexivity.
Qed.

Lemma blur_pixel_reference (x y c : Z) :
  0 <= x < w -> 0 <= y < h -> 0 <= c < 3 ->
  blur_pixel w h maxv pix y x c = Ok (reference_pixel w h maxv pix x y c).
Proof.
  intros Hx Hy Hc. unfold blur_pixel.
  rewrite accumulate_sum, sum_range_reference by assumption. cbn [bind].
  rewrite rounded_no_wrap by (apply reference_acc_bounds; assumption).
  reflexivity.
Qed.

(** *** The pixel loops *)

Lemma written_store (g : Z -> Z) (k : Z) (out : list Z) :
  0 <= k < w * h * 3 -> written g k out ->
  exists out', store out k (g k) = Ok out' /\ written g (k + 1) out'.
Proof.
  intros Hk [Hl Hg]. exists (<[Z.to_nat k := g k]> out). split.
  - apply store_in_range. lia.
  - split; [rewrite length_insert; exact Hl|].
    intros i Hi. destruct (decide (i = Z.to_nat k)) as [->|Hne].
    + rewrite list_lookup_insert_eq by lia. f_equal. f_equal. lia.
    + rewrite list_lookup_insert_ne by congruence. apply Hg. lia.
Qed.

Lemma written_all (g : Z -> Z) (out : list Z) :
  written g (w * h * 3) out -> out = g <$> seqZ 0 (w * h * 3).
Proof.
  intros [Hl Hg]. apply list_eq. intros i.
  rewrite list_lookup_fmap.
  destruct (decide (Z.of_nat i < w * h * 3)) as [Hi|Hi].
  - rewrite Hg, lookup_seqZ_lt by lia. reflexivity.
  - rewrite lookup_seqZ_ge by lia. apply lookup_ge_None. lia.
Qed.

Lemma blur_loops_written (pixel : Z -> Z -> Z -> result Z) (g : Z -> Z)
    (outpix : list Z) :
  length outpix = Z.to_nat (w * h * 3) ->
  (forall x y c, 0 <= x < w -> 0 <= y < h -> 0 <= c < 3 ->
     pixel y x c = Ok (g (pixel_index w x y c))) ->
  blur_loops w h pixel outpix = Ok (g <$> seqZ 0 (w * h * 3)).
Proof.
  intros Hl Hpixel. unfold blur_loops.
  match goal with
  | |- for_range ?lo ?hi ?body ?st = _ =>
      destruct (for_range_inv (fun y => written g (pixel_index w 0 y 0))
                  body lo hi st) as (out & -> & Hout)
  end; [lia| | |].
  - split; [exact Hl|]. unfold pixel_index. intros i Hi. lia.
  - intros y out Hy Hinv.
    match goal with
    | |- exists s', for_range ?lo ?hi ?body ?st = _ /\ _ =>
        destruct (for_range_inv (fun x => written g (pixel_index w x y 0))
                    body lo hi st) as (out1 & E1 & Hout1)
    end; [lia|exact Hinv| |].
    + intros x o Hx Hinvx.
      match goal with
      | |- exists s', for_range ?lo ?hi ?body ?st = _ /\ _ =>
          destruct (for_range_inv
                      (fun c => written g (pixel_index w x y c))
                      body lo hi st) as (o1 & E2 & Ho1)
      end; [lia|exact Hinvx| |].
      * intros c o' Hc Hinvc. cbv zeta.
        rewrite Hpixel by lia. cbn [bind].
        rewrite index_no_wrap by lia.
        replace (pixel_index w x y (c + 1)) with (pixel_index w x y c + 1)
          by (unfold pixel_index; lia).
        apply written_store; [|exact Hinvc].
        apply pixel_index_bounds; lia.
      * exists o1. split; [exact E2|].
        replace (pixel_index w (x + 1) y 0) with (pixel_index w x y 3)
          by (unfold pixel_index; lia).
        exact Ho1.
    + exists out1. split; [exact E1|].
      replace (pixel_index w 0 (y + 1) 0) with (pixel_index w w y 0)
        by (unfold pixel_index; lia).
      exact Hout1.
  - f_equal. apply written_all.
    replace (w * h * 3) with (pixel_index w 0 h 0)
      by (unfold pixel_index; lia).
    exact Hout.
Qed.

Lemma blur_reference (outpix : list Z) :
  length outpix = length pix ->
  blur w h maxv pix outpix = Ok (reference_flat <$> seqZ 0 (w * h * 3)).
Proof.
  intros Hl. unfold blur. apply blur_loops_written; [congruence|].
  intros x y c Hx Hy Hc. unfold reference_flat.
  destruct (coords_of_index w x y c Hx Hc) as (-> & -> & ->).
  apply blur_pixel_reference; assumption.
Qed.

End Convolution.

Lemma y_of_bound (w h i : Z) :
  0 < w -> 0 <= i < w * h * 3 -> y_of w i < h.
Proof.
  intros Hw Hi. unfold y_of.
  apply Z.div_lt_upper_bound; [lia|].
  apply Z.div_lt_upper_bound; lia.
Qed.

Lemma lookup_reference (g : Z -> Z) (n i : Z) :
  0 <= i < n -> (g <$> seqZ 0 n) !! Z.to_nat i = Some (g i).
Proof.
  intros Hi. rewrite list_lookup_fmap, lookup_seqZ_lt by lia.
  cbn. f_equal. f_equal. lia.
Qed.

Ltac prove_valid :=
  constructor; cbn [width height max_value channels];
  [ lia | lia | lia | unfold MAX_VALS; lia | reflexivity
  | repeat (apply List.Forall_cons; [unfold in_range; lia|]);
    apply List.Forall_nil ].



Lemma blur_in_range (w h maxv : Z) (pix outpix : list Z) :
  valid_image (Image w h maxv pix) ->
  length outpix = length pix ->
  exists out,
    blur w h maxv pix outpix = Ok out
    /\ length out = length pix
    /\ Forall (in_range maxv) out.
Proof.
  intros Hv Hl. eexists. split; [|split].
  - apply (blur_reference w h maxv pix Hv outpix Hl).
  - rewrite length_fmap, length_seqZ. symmetry. apply (valid_length _ Hv).
  - apply Forall_fmap, Forall_forall. intros i _. cbn.
    unfold reference_flat, reference_pixel, in_range.
    apply clamp_bounds. pose proof (valid_max_value _ Hv). cbn in *. lia.
Qed.

(** C2: for a valid image, every channel value of the output buffer of
    the blur lies in [0, max_value]. *)
Theorem blur_output_in_range (img : image) (outpix : list Z) :
  valid_image img ->
  length outpix = length (channels img) ->
  exists out,
    blur (width img) (height img) (max_value img) (channels img) outpix
    = Ok out
    /\ length out = length (channels img)
    /\ Forall (in_range (max_value img)) out.
Proof.
  destruct img as [w h maxv pix]. cbn [width height max_value channels].
  apply blur_in_range.
Qed.

Lemma blur_output_in_range_witness :
  exists out,
    blur 1 2 255 [255; 0; 255; 0; 255; 1] [0; 0; 0; 0; 0; 0] = Ok out
    /\ length out = 6%nat
    /\ Forall (in_range 255) out.
Proof.
  apply (blur_output_in_range (Image 1 2 255 [255; 0; 255; 0; 255; 1])
           [0; 0; 0; 0; 0; 0]); [|reflexivity].
  prove_valid.
Defined.

(** *** Uniform images *)

Lemma reference_pixel_uniform (w h maxv V : Z) (n : nat) (x y c : Z) :
  0 < w -> 0 < h -> n = Z.to_nat (w * h * 3) -> 0 <= V <= maxv ->
  0 <= x < w -> 0 <= y < h -> 0 <= c < 3 ->
  reference_pixel w h maxv (replicate n V) x y c = V.
Proof.
  intros Hw Hh Hn HV Hx Hy Hc.
  unfold reference_pixel, reference_rounded, reference_acc.
  rewrite (sumZ_ext _ _ (fun p => weight (fst p) (snd p) * V)
             _ offsets_in_range).
  - rewrite sumZ_scale, kernel_sum. unfold KSUM.
    change (81 / 2) with 40.
    replace (81 * V + 40) with (40 + V * 81) by lia.
    rewrite Z.div_add by lia.
    change (40 / 81) with 0. apply clamp_id. lia.
  - intros [kx ky] [Hkx Hky]. cbn [fst snd] in *. unfold is_offset in *.
    f_equal. unfold input_at.
    pose proof (clamp_bounds (y + ky) 0 (h - 1) ltac:(lia)).
    pose proof (clamp_bounds (x + kx) 0 (w - 1) ltac:(lia)).
    rewrite lookup_replicate_2; [reflexivity|].
    unfold pixel_index. subst n. nia.
Qed.

(** C3: the blur of a uniform image, every channel value equal to some
    [V] in [0, max_value], is that same uniform image. *)
Theorem blur_uniform (w h maxv V : Z) (outpix : list Z) :
  0 < w -> 0 < h -> 1 <= maxv <= 65535 -> w * h * 3 <= MAX_VALS ->
  0 <= V <= maxv ->
  length outpix = Z.to_nat (w * h * 3) ->
  blur w h maxv (replicate (Z.to_nat (w * h * 3)) V) outpix
  = Ok (replicate (Z.to_nat (w * h * 3)) V).
Proof.
  intros Hw Hh Hm Hs HV Hl.
  assert (Hv : valid_image
                 (Image w h maxv (replicate (Z.to_nat (w * h * 3)) V))).
  { constructor; cbn [width height max_value channels]; try assumption.
    - apply length_replicate.
    - apply Forall_replicate. exact HV. }
  rewrite (blur_reference w h maxv _ Hv)
    by (rewrite length_replicate; exact Hl).
  f_equal. apply list_eq. intros i.
  rewrite list_lookup_fmap.
  destruct (decide (Z.of_nat i < w * h * 3)) as [Hi|Hi].
  - rewrite lookup_seqZ_lt, lookup_replicate_2 by lia.
    rewrite Z.add_0_l. cbn. f_equal. unfold reference_flat.
    destruct (index_of_coords w (Z.of_nat i) Hw ltac:(lia))
      as (_ & Hx & Hc & Hy).
    pose proof (y_of_bound w h (Z.of_nat i) Hw ltac:(lia)).
    apply (reference_pixel_uniform w h maxv V); try assumption; try reflexivity; lia.
  - rewrite lookup_seqZ_ge by lia. symmetry.
    apply lookup_replicate_None. lia.
Qed.

Lemma blur_uniform_witness :
  blur 2 2 255 (replicate (Z.to_nat (2 * 2 * 3)) 200)
    [1; 2; 3; 4; 5; 6; 7; 8; 9; 10; 11; 12]
  = Ok (replicate (Z.to_nat (2 * 2 * 3)) 200).
Proof.
  apply (blur_uniform 2 2 255 200); [lia|lia|lia|unfold MAX_VALS; lia|lia|].
  reflexivity.
Defined.

(** C10: for a valid image the clamp of line 125 changes nothing: the
    accumulator of every channel is between 0 and [81 * max_value], its
    rounded value [(acc + 40) / 81] is already in [0, max_value], and the
    blur without that clamp fills the output buffer with the same
    values. *)
Theorem blur_clamp_noop (img : image) (outpix : list Z) :
  valid_image img ->
  length outpix = length (channels img) ->
  (forall x y c,
     0 <= x < width img -> 0 <= y < height img -> 0 <= c < 3 ->
     exists acc v,
       accumulate (width img) (height img) (channels img) y x c = Ok acc
       /\ 0 <= acc <= 81 * max_value img
       /\ blur_pixel_noclamp (width img) (height img) (channels img) y x c
          = Ok v
       /\ v = (acc + 40) / 81
       /\ in_range (max_value img) v)
  /\ exists out,
       blur (width img) (height img) (max_value img) (channels img) outpix
       = Ok out
       /\ blur_noclamp (width img) (height img) (channels img) outpix
          = Ok out.
Proof.
  destruct img as [w h maxv pix]. cbn [width height max_value channels].
  intros Hv Hl. split.
  - intros x y c Hx Hy Hc.
    exists (reference_acc w h pix x y c), (reference_rounded w h pix x y c).
    split; [|split; [|split; [|split]]].
    + rewrite (accumulate_sum w h maxv pix Hv) by assumption.
      rewrite sum_range_reference. reflexivity.
    + apply (reference_acc_bounds w h maxv pix Hv); assumption.
    + apply (blur_pixel_noclamp_reference w h maxv pix Hv); assumption.
    + reflexivity.
    + apply (reference_rounded_range w h maxv pix Hv); assumption.
  - eexists. split.
    + apply (blur_reference w h maxv pix Hv outpix Hl).
    + unfold blur_noclamp.
      apply (blur_loops_written w h maxv pix Hv);
        [rewrite Hl; apply (valid_length _ Hv)|].
      intros x y c Hx Hy Hc. unfold reference_flat.
      destruct (coords_of_index w x y c Hx Hc) as (-> & -> & ->).
      rewrite (blur_pixel_noclamp_reference w h maxv pix Hv) by assumption.
      unfold reference_pixel. rewrite clamp_id; [reflexivity|].
      apply (reference_rounded_range w h maxv pix Hv); assumption.
Qed.

Lemma blur_clamp_noop_witness :
  (forall x y c,
     0 <= x < 1 -> 0 <= y < 1 -> 0 <= c < 3 ->
     exists acc v,
       accumulate 1 1 [255; 0; 17] y x c = Ok acc
       /\ 0 <= acc <= 81 * 255
       /\ blur_pixel_noclamp 1 1 [255; 0; 17] y x c = Ok v
       /\ v = (acc + 40) / 81
       /\ in_range 255 v)
  /\ exists out,
       blur 1 1 255 [255; 0; 17] [0; 0; 0] = Ok out
       /\ blur_noclamp 1 1 [255; 0; 17] [0; 0; 0] = Ok out.
Proof.
  apply (blur_clamp_noop (Image 1 1 255 [255; 0; 17]) [0; 0; 0]);
    [|reflexivity].
  prove_valid.
Defined.

(** ** Characters *)

Lemma digit_chr_digit (d : Z) :
  0 <= d < 10 -> isdigit (digit_chr d) = true /\ digit_val (digit_chr d) = d.
Proof.
  intros Hd.
  assert (E : d = 0 \/ d = 1 \/ d = 2 \/ d = 3 \/ d = 4 \/ d = 5 \/ d = 6
              \/ d = 7 \/ d = 8 \/ d = 9) by lia.
  repeat (destruct E as [->|E]; [split; reflexivity|]).
  subst d. split; reflexivity.
Qed.

Lemma digit_not_blank (c : ascii) :
  isdigit c = true ->
  isspace c = false /\ Ascii.eqb c HASH = false
  /\ Ascii.eqb c MINUS = false /\ Ascii.eqb c PLUS = false.
Proof.
  destruct c as [[] [] [] [] [] [] [] []]; vm_compute; intros H;
    repeat split; solve [reflexivity | discriminate].
Qed.

(** ** Decimal numbers *)

Lemma digits_fuel_app (fuel : nat) (n : Z) (acc rest : list ascii) :
  digits_fuel fuel n acc ++ rest = digits_fuel fuel n (acc ++ rest).
Proof.
  revert n acc. induction fuel as [|fuel IH]; intros n acc; [reflexivity|].
  cbn [digits_fuel]. destruct (n <? 10); [reflexivity|]. apply IH.
Qed.

Lemma digits_fuel_S (fuel : nat) (n : Z) (acc : list ascii) :
  digits_fuel (S fuel) n acc
  = if n <? 10 then digit_chr (n mod 10) :: acc
    else digits_fuel fuel (n / 10) (digit_chr (n mod 10) :: acc).
Proof. reflexivity. Qed.

Lemma scan_digits_fuel (fuel : nat) (n : Z) (acc : list ascii) :
  0 <= n < 10 ^ Z.of_nat (S fuel) ->
  scan_digits None (digits_fuel (S fuel) n acc) = scan_digits (Some n) acc.
Proof.
  revert n acc. induction fuel as [|fuel IH]; intros n acc Hn;
    pose proof (Z.mod_pos_bound n 10 ltac:(lia)) as Hm;
    destruct (digit_chr_digit (n mod 10) Hm) as [Hd Hv];
    rewrite digits_fuel_S; destruct (Z.ltb_spec n 10) as [Hlt|Hge].
  - cbn [scan_digits]. rewrite Hd, Hv. cbn [from_option id].
    rewrite Z.mod_small by lia. reflexivity.
  - change (10 ^ Z.of_nat 1) with 10 in Hn. lia.
  - cbn [scan_digits]. rewrite Hd, Hv. cbn [from_option id].
    rewrite Z.mod_small by lia. reflexivity.
  - rewrite IH.
    + cbn [scan_digits]. rewrite Hd, Hv. cbn [from_option id].
      f_equal. f_equal. pose proof (Z.div_mod n 10 ltac:(lia)). lia.
    + split; [apply Z.div_pos; lia|].
      apply Z.div_lt_upper_bound; [lia|].
      rewrite (Nat2Z.inj_succ (S fuel)), Z.pow_succ_r in Hn by lia. lia.
Qed.

Lemma print_nat_fuel (n : Z) :
  0 <= n -> n < 10 ^ Z.of_nat (S (Z.to_nat (Z.log2 n))).
Proof.
  intros Hn. rewrite Nat2Z.inj_succ, Z2Nat.id by apply Z.log2_nonneg.
  destruct (Z.eq_dec n 0) as [->|Hnz]; [reflexivity|].
  pose proof (Z.log2_spec n ltac:(lia)) as [_ Hlt].
  eapply Z.lt_le_trans; [exact Hlt|].
  apply Z.pow_le_mono_l. lia.
Qed.

Lemma scan_digits_stop (acc : option Z) (q : stream) :
  ends_token q = true -> scan_digits acc q = (acc, q).
Proof.
  destruct q as [|c q]; [reflexivity|]. cbn.
  destruct (isdigit c); [discriminate|reflexivity].
Qed.

Lemma scan_print_nat (n : Z) (q : stream) :
  0 <= n -> ends_token q = true ->
  scan_digits None (print_nat n ++ q) = (Some n, q).
Proof.
  intros Hn Hq. unfold print_nat.
  rewrite digits_fuel_app, scan_digits_fuel
    by (split; [exact Hn|apply print_nat_fuel; exact Hn]).
  apply scan_digits_stop. exact Hq.
Qed.

Lemma digits_fuel_head (fuel : nat) (n : Z) (acc : list ascii) :
  0 <= n -> starts_with_digit (digits_fuel (S fuel) n acc) = true.
Proof.
  revert n acc. induction fuel as [|fuel IH]; intros n acc Hn;
    pose proof (Z.mod_pos_bound n 10 ltac:(lia)) as Hm;
    destruct (digit_chr_digit (n mod 10) Hm) as [Hd _];
    rewrite digits_fuel_S; destruct (n <? 10); try exact Hd.
  apply IH. apply Z.div_pos; lia.
Qed.

Lemma print_nat_head (n : Z) (q : stream) :
  0 <= n -> starts_with_digit (print_nat n ++ q) = true.
Proof.
  intros Hn. unfold print_nat. rewrite digits_fuel_app.
  apply digits_fuel_head. exact Hn.
Qed.

(** ** Reading a number that was written *)

Lemma skip_blanks_digit (s : stream) :
  starts_with_digit s = true -> skip_blanks s = Some s.
Proof.
  destruct s as [|c s]; [discriminate|]. cbn [starts_with_digit]. intros Hc.
  destruct (digit_not_blank c Hc) as (Hs & Hh & _).
  cbn [skip_blanks]. rewrite Hs, Hh. reflexivity.
Qed.

Lemma fscanf_d_digit (s : stream) :
  starts_with_digit s = true ->
  fscanf_d s
  = match scan_digits None s with
    | (Some n, s2) => Some (store_int n, s2)
    | (None, _) => None
    end.
Proof.
  destruct s as [|c s]; [discriminate|]. cbn [starts_with_digit]. intros Hc.
  destruct (digit_not_blank c Hc) as (Hs & _ & Hm & Hp).
  unfold fscanf_d. cbn [skip_spaces]. rewrite Hs, Hm, Hp. reflexivity.
Qed.

Lemma skip_blanks_space (c : ascii) (s : stream) :
  isspace c = true -> skip_blanks (c :: s) = skip_blanks s.
Proof. intros Hc. cbn [skip_blanks]. rewrite Hc. reflexivity. Qed.

Lemma read_int_space (c : ascii) (s : stream) :
  isspace c = true -> read_int (c :: s) = read_int s.
Proof. intros Hc. unfold read_int. rewrite skip_blanks_space by exact Hc. reflexivity. Qed.

(** [read_int] on the decimal text of a non-negative [int], followed by
    something that is not a digit, returns that integer. *)
Lemma read_int_print (v : Z) (q : stream) :
  0 <= v <= INT_MAX -> ends_token q = true ->
  read_int (print_int v ++ q) = Ok (Some v, q).
Proof.
  intros Hv Hq. unfold print_int.
  destruct (Z.ltb_spec v 0); [lia|].
  unfold read_int.
  rewrite skip_blanks_digit by (apply print_nat_head; lia).
  rewrite fscanf_d_digit by (apply print_nat_head; lia).
  rewrite scan_print_nat by (lia || assumption).
  rewrite store_int_small; [reflexivity|].
  unfold is_int, INT_MIN, INT_MAX in *. lia.
Qed.

(** ** The size guard of the header *)

Lemma to_int_range (x : Z) : is_int (to_int x).
Proof.
  unfold is_int, INT_MIN, INT_MAX, to_int, wrap.
  change (2 ^ (32 - 1)) with 2147483648. change (2 ^ 32) with 4294967296.
  pose proof (Z.mod_pos_bound (x + 2147483648) 4294967296 ltac:(lia)). lia.
Qed.

Lemma to_ll_high (x : Z) :
  LLONG_MAX < x <= LLONG_MAX + 2 ^ 64 -> to_ll x = x - 2 ^ 64.
Proof.
  unfold LLONG_MAX, to_ll, wrap. intros Hx.
  change (2 ^ (64 - 1)) with 9223372036854775808.
  change (2 ^ 64) with 18446744073709551616 in *.
  replace (x + 9223372036854775808)
    with (x - 9223372036854775808 + 1 * 18446744073709551616) by lia.
  rewrite Z.mod_add by lia. rewrite Z.mod_small by lia. lia.
Qed.

(** On two's-complement hardware the test of line 83 passes exactly when
    the product is at most [MAX_VALS], and [nvals] is then the product. *)
Lemma size_guard (w h : Z) :
  0 < w <= INT_MAX -> 0 < h <= INT_MAX ->
  ((nvals_of w h <=? 0) || (nvals_of w h >? MAX_VALS) = false
   <-> w * h * 3 <= MAX_VALS)
  /\ (w * h * 3 <= MAX_VALS -> nvals_of w h = w * h * 3).
Proof.
  unfold INT_MAX, MAX_VALS. intros Hw Hh.
  assert (Hp : 0 < w * h <= 2147483647 * 2147483647) by nia.
  unfold nvals_of.
  rewrite (to_ll_small (w * h)) by (unfold is_ll, LLONG_MIN, LLONG_MAX; lia).
  destruct (Z_le_gt_dec (w * h * 3) LLONG_MAX) as [Hs|Hb].
  - rewrite to_ll_small by (unfold is_ll, LLONG_MIN, LLONG_MAX in *; lia).
    split; [|reflexivity].
    destruct (Z.leb_spec (w * h * 3) 0); [lia|].
    destruct (Z.gtb_spec (w * h * 3) 200000000); cbn; split;
      solve [lia | discriminate | reflexivity].
  - rewrite to_ll_high
      by (unfold LLONG_MAX in *; change (2 ^ 64) with 18446744073709551616;
          lia).
    unfold LLONG_MAX in Hb. change (2 ^ 64) with 18446744073709551616.
    split; [|lia].
    destruct (Z.leb_spec (w * h * 3 - 18446744073709551616) 0); [|lia].
    cbn. split; [discriminate|lia].
Qed.

(** ** Inversion of the header parser *)

Lemma bind_ok {A B : Type} (m : result A) (k : A -> result B) (b : B) :
  bind m k = Ok b -> exists a, m = Ok a /\ k a = Ok b.
Proof. destruct m as [a|e]; [|discriminate]. intros H. exists a. auto. Qed.

Lemma read_int_is_int (s s' : stream) (v : Z) :
  read_int s = Ok (Some v, s') -> is_int v.
Proof.
  unfold read_int. destruct (skip_blanks s) as [s1|]; [|discriminate].
  unfold fscanf_d.
  destruct (match skip_spaces s1 with
            | [] => (false, skip_spaces s1)
            | c :: t =>
                if Ascii.eqb c MINUS then (true, t)
                else if Ascii.eqb c PLUS then (false, t)
                else (false, skip_spaces s1)
            end) as [neg s2].
  destruct (scan_digits None s2) as [[n|] s3]; [|discriminate].
  intros H. injection H as <- _. unfold store_int. apply to_int_range.
Qed.

Lemma need_int_ok (e : error) (s s' : stream) (v : Z) :
  need_int e s = Ok (v, s') -> read_int s = Ok (Some v, s') /\ is_int v.
Proof.
  unfold need_int. intros H. apply bind_ok in H as ([[v'|] s1] & Hr & H);
    [|discriminate].
  injection H as <- <-. split; [exact Hr|].
  exact (read_int_is_int _ _ _ Hr).
Qed.

Lemma check_header_ok (w h maxv nvals : Z) :
  is_int w -> is_int h ->
  check_header w h maxv = Ok nvals ->
  0 < w /\ 0 < h /\ 1 <= maxv <= 65535 /\ w * h * 3 <= MAX_VALS
  /\ nvals_of w h = w * h * 3.
Proof.
  unfold check_header. intros Hw Hh H.
  destruct (Z.leb_spec w 0); [discriminate|].
  destruct (Z.leb_spec h 0); [discriminate|]. cbn [orb] in H.
  destruct (Z.leb_spec maxv 0); [discriminate|].
  destruct (Z.gtb_spec maxv 65535); [discriminate|]. cbn [orb] in H.
  cbv zeta in H.
  destruct ((nvals_of w h <=? 0) || (nvals_of w h >? MAX_VALS))
    eqn:Hg; [discriminate|].
  unfold is_int, INT_MIN in *.
  destruct (size_guard w h ltac:(lia) ltac:(lia)) as [Hiff Heq].
  apply Hiff in Hg. specialize (Heq Hg). repeat split; lia.
Qed.

Lemma check_header_valid (w h maxv : Z) :
  0 < w -> 0 < h -> 1 <= maxv <= 65535 -> w * h * 3 <= MAX_VALS ->
  check_header w h maxv = Ok (w * h * 3).
Proof.
  intros Hw Hh Hm Hs. unfold check_header.
  assert (Hws : w <= MAX_VALS /\ h <= MAX_VALS) by (unfold MAX_VALS in *; nia).
  destruct (Z.leb_spec w 0); [lia|]. destruct (Z.leb_spec h 0); [lia|].
  destruct (Z.leb_spec maxv 0); [lia|].
  destruct (Z.gtb_spec maxv 65535); [lia|]. cbn [orb]. cbv zeta.
  destruct (size_guard w h) as [Hiff Heq];
    [unfold MAX_VALS, INT_MAX in *; lia..|].
  rewrite (proj2 Hiff Hs), (Heq Hs). reflexivity.
Qed.

(** On two's-complement hardware an image of more than [MAX_VALS] values
    is rejected with [ImageTooLarge]. *)
Lemma check_header_too_large (w h maxv : Z) :
  0 < w <= INT_MAX -> 0 < h <= INT_MAX -> 1 <= maxv <= 65535 ->
  MAX_VALS < w * h * 3 ->
  check_header w h maxv = Err ImageTooLarge.
Proof.
  intros Hw Hh Hm Hs. unfold check_header.
  destruct (Z.leb_spec w 0); [lia|]. destruct (Z.leb_spec h 0); [lia|].
  destruct (Z.leb_spec maxv 0); [lia|].
  destruct (Z.gtb_spec maxv 65535); [lia|]. cbn [orb]. cbv zeta.
  destruct (size_guard w h Hw Hh) as [Hiff _].
  destruct ((nvals_of w h <=? 0) || (nvals_of w h >? MAX_VALS));
    [reflexivity|].
  pose proof (proj1 Hiff eq_refl). lia.
Qed.

Lemma read_header_ok (s s' : stream) (w h maxv : Z) :
  read_header s = Ok (w, h, maxv, s') ->
  0 < w /\ 0 < h /\ 1 <= maxv <= 65535 /\ w * h * 3 <= MAX_VALS
  /\ nvals_of w h = w * h * 3.
Proof.
  unfold read_header. intros H.
  apply bind_ok in H as ([magic s0] & _ & H).
  destruct (negb (strcmp_eq (c_string magic) (str "P3"))); [discriminate|].
  apply bind_ok in H as ([w' s1] & Hw & H).
  apply bind_ok in H as ([h' s2] & Hh & H).
  apply bind_ok in H as ([m' s3] & Hm & H).
  apply bind_ok in H as (nvals & Hc & H).
  apply need_int_ok in Hw as [_ Hw]. apply need_int_ok in Hh as [_ Hh].
  injection H as <- <- <- <-.
  exact (check_header_ok _ _ _ _ Hw Hh Hc).
Qed.

(** ** Reading the header that was written *)

Lemma ends_token_NL (q : stream) : ends_token (NL :: q) = true.
Proof. reflexivity. Qed.

Lemma ends_token_SP (q : stream) : ends_token (SP :: q) = true.
Proof. reflexivity. Qed.

Lemma need_int_print (e : error) (c : ascii) (v : Z) (q : stream) :
  isspace c = true -> 0 <= v <= INT_MAX -> ends_token q = true ->
  need_int e (c :: print_int v ++ q) = Ok (v, q).
Proof.
  intros Hc Hv Hq. unfold need_int.
  rewrite read_int_space, read_int_print by assumption. reflexivity.
Qed.

Lemma read_header_print (w h maxv : Z) (q : stream) :
  0 < w -> 0 < h -> 1 <= maxv <= 65535 -> w * h * 3 <= MAX_VALS ->
  read_header (print_header w h maxv ++ q) = Ok (w, h, maxv, NL :: q).
Proof.
  intros Hw Hh Hm Hs.
  assert (Hws : w <= MAX_VALS /\ h <= MAX_VALS) by (unfold MAX_VALS in *; nia).
  unfold print_header, read_header.
  rewrite <- !app_assoc. cbn [str list_ascii_of_string app].
  change (fscanf_2s (?a :: ?b :: ?r)) with (Some ([a; b], r)).
  cbn [of_option bind].
  change (negb (strcmp_eq (c_string _) _)) with false. cbv iota.
  rewrite need_int_print;
    [|reflexivity|unfold MAX_VALS, INT_MAX in *; lia|reflexivity].
  cbn [bind].
  rewrite need_int_print;
    [|reflexivity|unfold MAX_VALS, INT_MAX in *; lia|reflexivity].
  cbn [bind].
  rewrite need_int_print;
    [|reflexivity|unfold MAX_VALS, INT_MAX in *; lia|reflexivity].
  cbn [bind].
  rewrite check_header_valid by assumption. reflexivity.
Qed.

(** ** The pixel loader *)

Lemma for_loop_app {St : Type} (body : Z -> St -> result St) (a b : nat)
    (i : Z) (st : St) :
  for_loop (a + b) i body st
  = let* st' := for_loop a i body st in for_loop b (i + Z.of_nat a) body st'.
Proof.
  revert i st. induction a as [|a IH]; intros i st.
  - cbn. f_equal. lia.
  - cbn [Nat.add for_loop]. destruct (body i st) as [st1|e]; [|reflexivity].
    cbn [bind]. rewrite IH. f_equal. f_equal. lia.
Qed.

Lemma read_pixels_unfold (nvals maxv : Z) (pix : list Z) (s : stream) :
  read_pixels nvals maxv pix s
  = for_loop (Z.to_nat nvals) 0 (read_pixel_step maxv) (pix, s).
Proof.
  unfold read_pixels, for_range. rewrite Z.sub_0_r. reflexivity.
Qed.

Lemma in_range_test (maxv v : Z) :
  in_range maxv v -> (v <? 0) || (v >? maxv) = false.
Proof.
  unfold in_range. intros H.
  destruct (Z.ltb_spec v 0); [lia|]. destruct (Z.gtb_spec v maxv); [lia|].
  reflexivity.
Qed.

Lemma out_of_range_test (maxv v : Z) :
  ~ in_range maxv v -> (v <? 0) || (v >? maxv) = true.
Proof.
  unfold in_range. intros H.
  destruct (Z.ltb_spec v 0); [reflexivity|].
  destruct (Z.gtb_spec v maxv); [reflexivity|lia].
Qed.

Lemma store_middle (done rest : list Z) (r v : Z) :
  store (done ++ r :: rest) (Z.of_nat (length done)) v
  = Ok ((done ++ [v]) ++ rest).
Proof.
  rewrite store_in_range by (rewrite length_app; cbn [length]; lia).
  rewrite Nat2Z.id, insert_app_r_alt, Nat.sub_diag by lia.
  cbn. rewrite <- app_assoc. reflexivity.
Qed.

Lemma read_loop_ok (maxv : Z) (s s' : stream) (vs : list Z) :
  reads s vs s' ->
  Forall (in_range maxv) vs ->
  forall done rest : list Z,
    (length vs <= length rest)%nat ->
    for_loop (length vs) (Z.of_nat (length done)) (read_pixel_step maxv)
      (done ++ rest, s)
    = Ok (done ++ vs ++ drop (length vs) rest, s').
Proof.
  induction 1 as [s|s s1 s2 v vs Hr Hrs IH]; intros Hin done rest Hlen.
  - cbn. rewrite drop_0. reflexivity.
  - apply Forall_cons in Hin as [Hv Hin].
    destruct rest as [|r rest]; [cbn in Hlen; lia|].
    cbn [length for_loop read_pixel_step]. rewrite Hr. cbn [bind].
    rewrite in_range_test by exact Hv.
    rewrite store_middle. cbn [bind].
    replace (Z.of_nat (length done) + 1)
      with (Z.of_nat (length (done ++ [v])))
      by (rewrite length_app; cbn [length]; lia).
    rewrite IH by (assumption || (cbn in Hlen; lia)).
    rewrite <- app_assoc. reflexivity.
Qed.

Lemma read_loop_inv (maxv : Z) (n : nat) :
  forall (done rest pix : list Z) (s s' : stream),
    (n <= length rest)%nat ->
    for_loop n (Z.of_nat (length done)) (read_pixel_step maxv)
      (done ++ rest, s) = Ok (pix, s') ->
    exists vs,
      reads s vs s' /\ length vs = n /\ Forall (in_range maxv) vs
      /\ pix = done ++ vs ++ drop n rest.
Proof.
  induction n as [|n IH]; intros done rest pix s s' Hlen H.
  - cbn in H. injection H as <- <-. exists []. rewrite drop_0.
    repeat split; constructor.
  - destruct rest as [|r rest]; [cbn in Hlen; lia|].
    cbn [for_loop read_pixel_step] in H.
    apply bind_ok in H as ([pix1 s1] & H1 & H).
    apply bind_ok in H1 as ([[v|] t] & Hr & H1); [|discriminate].
    destruct ((v <? 0) || (v >? maxv)) eqn:Hv; [discriminate|].
    rewrite store_middle in H1. cbn [bind] in H1. injection H1 as <- <-.
    replace (Z.of_nat (length done) + 1)
      with (Z.of_nat (length (done ++ [v]))) in H
      by (rewrite length_app; cbn [length]; lia).
    apply IH in H as (vs & Hrs & Hl & Hin & ->); [|cbn in Hlen; lia].
    exists (v :: vs). repeat split.
    + econstructor; eassumption.
    + cbn. lia.
    + constructor; [|exact Hin]. unfold in_range.
      destruct (Z.ltb_spec v 0); [discriminate|].
      destruct (Z.gtb_spec v maxv); [discriminate|]. lia.
    + rewrite <- app_assoc. reflexivity.
Qed.

(** The loader after [vs] have been read and stored: it goes on with
    the next [read_int]. *)
Lemma read_loop_prefix (maxv : Z) (s s1 : stream) (vs buf : list Z) (m : nat) :
  reads s vs s1 -> Forall (in_range maxv) vs ->
  (length vs + S m <= length buf)%nat ->
  for_loop (length vs + S m) 0 (read_pixel_step maxv) (buf, s)
  = let* st :=
      read_pixel_step maxv (Z.of_nat (length vs))
        (vs ++ drop (length vs) buf, s1) in
    for_loop m (Z.of_nat (length vs) + 1) (read_pixel_step maxv) st.
Proof.
  intros Hr Hin Hlen. rewrite for_loop_app.
  pose proof (read_loop_ok maxv s s1 vs Hr Hin [] buf ltac:(lia)) as E.
  cbn [app length] in E. change (Z.of_nat 0) with 0 in E. rewrite E.
  cbn [bind app for_loop]. rewrite Z.add_0_l. reflexivity.
Qed.

(** The loader succeeds exactly when the next [nvals] calls of
    [read_int] return integers in [0, max_value]; the buffer then holds
    them in stream order. *)
Lemma read_pixels_success (nvals maxv : Z) (buf : list Z) (s : stream)
    (pix : list Z) (s' : stream) :
  length buf = Z.to_nat nvals ->
  read_pixels nvals maxv buf s = Ok (pix, s')
  <-> reads s pix s' /\ length pix = Z.to_nat nvals
      /\ Forall (in_range maxv) pix.
Proof.
  intros Hbuf. rewrite read_pixels_unfold. split.
  - intros H.
    change 0 with (Z.of_nat (length (@nil Z))) in H.
    apply (read_loop_inv maxv (Z.to_nat nvals) [] buf) in H
      as (vs & Hr & Hl & Hin & ->); [|lia].
    rewrite drop_ge, app_nil_r by lia. cbn [app]. auto.
  - intros (Hr & Hl & Hin).
    pose proof (read_loop_ok maxv s s' pix Hr Hin [] buf ltac:(lia)) as E.
    rewrite Hl in E. cbn [app length] in E.
    change (Z.of_nat 0) with 0 in E. rewrite E.
    rewrite drop_ge, app_nil_r by lia. reflexivity.
Qed.

(** C8: the pixel loader reads exactly [nvals] integers.  It succeeds
    exactly when the next [nvals] calls of [read_int] return integers in
    [0, max_value], and the buffer then holds these integers in stream
    order; a value outside [0, max_value] is the error
    [PixelOutOfRange], and the end of the stream before the full count is
    the error [UnexpectedEndOfData]. *)
Theorem read_pixels_spec (nvals maxv : Z) (buf : list Z) (s : stream) :
  length buf = Z.to_nat nvals ->
  (forall pix s',
     read_pixels nvals maxv buf s = Ok (pix, s')
     <-> reads s pix s' /\ length pix = Z.to_nat nvals
         /\ Forall (in_range maxv) pix)
  /\ (forall vs s1 v s2,
        reads s vs s1 -> Forall (in_range maxv) vs ->
        (length vs < Z.to_nat nvals)%nat ->
        read_int s1 = Ok (Some v, s2) -> ~ in_range maxv v ->
        read_pixels nvals maxv buf s = Err PixelOutOfRange)
  /\ (forall vs s1 s2,
        reads s vs s1 -> Forall (in_range maxv) vs ->
        (length vs < Z.to_nat nvals)%nat ->
        read_int s1 = Ok (None, s2) ->
        read_pixels nvals maxv buf s = Err UnexpectedEndOfData).
Proof.
  intros Hbuf. split; [|rewrite read_pixels_unfold; split].
  - intros pix s'. apply read_pixels_success. exact Hbuf.
  - intros vs s1 v s2 Hr Hin Hlt Hv Hout.
    replace (Z.to_nat nvals)
      with (length vs + S (Z.to_nat nvals - length vs - 1))%nat by lia.
    rewrite (read_loop_prefix maxv s s1) by (assumption || lia).
    cbn [read_pixel_step]. rewrite Hv. cbn [bind].
    rewrite out_of_range_test by exact Hout. reflexivity.
  - intros vs s1 s2 Hr Hin Hlt Hv.
    replace (Z.to_nat nvals)
      with (length vs + S (Z.to_nat nvals - length vs - 1))%nat by lia.
    rewrite (read_loop_prefix maxv s s1) by (assumption || lia).
    cbn [read_pixel_step]. rewrite Hv. reflexivity.
Qed.

Lemma read_pixels_spec_witness :
  (forall pix s',
     read_pixels 3 255 [7; 7; 7] (str "1 2 300") = Ok (pix, s')
     <-> reads (str "1 2 300") pix s' /\ length pix = Z.to_nat 3
         /\ Forall (in_range 255) pix)
  /\ (forall vs s1 v s2,
        reads (str "1 2 300") vs s1 -> Forall (in_range 255) vs ->
        (length vs < Z.to_nat 3)%nat ->
        read_int s1 = Ok (Some v, s2) -> ~ in_range 255 v ->
        read_pixels 3 255 [7; 7; 7] (str "1 2 300") = Err PixelOutOfRange)
  /\ (forall vs s1 s2,
        reads (str "1 2 300") vs s1 -> Forall (in_range 255) vs ->
        (length vs < Z.to_nat 3)%nat ->
        read_int s1 = Ok (None, s2) ->
        read_pixels 3 255 [7; 7; 7] (str "1 2 300")
        = Err UnexpectedEndOfData).
Proof. apply (read_pixels_spec 3 255 [7; 7; 7] (str "1 2 300")). reflexivity. Defined.

(** ** The serializer *)

(** The body of the loop of lines 141-146. *)
Lemma print_loop (outpix : list Z) (vs : list Z) :
  forall (done : list Z) (out : list ascii),
    outpix = done ++ vs ->
    Z.of_nat (length outpix) <= INT_MAX ->
    for_loop (length vs) (Z.of_nat (length done)) (print_value_step outpix)
      (out, Z.of_nat (length done))
    = Ok (out ++ values_text (Z.of_nat (length done)) vs,
          Z.of_nat (length outpix)).
Proof.
  induction vs as [|v vs IH]; intros done out -> Hmax.
  - cbn. rewrite !app_nil_r. reflexivity.
  - cbn [length for_loop print_value_step values_text].
    rewrite load_in_range by (rewrite length_app; cbn [length]; lia).
    rewrite Nat2Z.id, list_lookup_middle by reflexivity.
    cbn [from_option id bind].
    rewrite length_app in Hmax. cbn [length] in Hmax.
    rewrite to_int_small by (unfold is_int, INT_MIN, INT_MAX in *; lia).
    rewrite Z.rem_mod_nonneg by (unfold per_line; lia).
    replace (Z.of_nat (length done) + 1)
      with (Z.of_nat (length (done ++ [v])))
      by (rewrite length_app; cbn [length]; lia).
    assert (E : done ++ v :: vs = (done ++ [v]) ++ vs)
      by (rewrite <- app_assoc; reflexivity).
    pose proof (IH (done ++ [v])
                  ((out ++ print_int v)
                   ++ [separator (Z.of_nat (length (done ++ [v])))]) E) as IH'.
    unfold separator at 1.
    destruct (Z.of_nat (length (done ++ [v])) mod per_line =? 0) eqn:Hs;
      cbn [bind]; unfold separator in IH'; rewrite Hs in IH';
      rewrite IH' by (rewrite length_app; cbn [length]; lia);
      rewrite <- !app_assoc; reflexivity.
Qed.

Lemma print_values_text (outpix : list Z) (out : list ascii) :
  Z.of_nat (length outpix) <= INT_MAX ->
  print_values (Z.of_nat (length outpix)) outpix out
  = Ok (out ++ body_text outpix).
Proof.
  intros Hmax. unfold print_values, for_range.
  rewrite Z.sub_0_r, Nat2Z.id.
  pose proof (print_loop outpix outpix [] out eq_refl Hmax) as E.
  cbn [length] in E. change (Z.of_nat 0) with 0 in E. rewrite E.
  cbn [bind].
  rewrite Z.rem_mod_nonneg by (unfold per_line; lia).
  unfold body_text.
  destruct (Z.of_nat (length outpix) mod per_line =? 0); cbn [negb];
    [rewrite app_nil_r|rewrite <- app_assoc]; reflexivity.
Qed.

(** ** The layout of the values *)

Lemma separator_space (c : Z) : isspace (separator c) = true.
Proof. unfold separator. destruct (c mod per_line =? 0); reflexivity. Qed.

Lemma ends_token_separator (c : Z) (q : stream) :
  ends_token (separator c :: q) = true.
Proof. unfold separator. destruct (c mod per_line =? 0); reflexivity. Qed.

Lemma values_text_line (line : list Z) :
  forall (c : Z) (rest : list Z),
    line <> [] ->
    (forall k, 0 < k < Z.of_nat (length line) -> (c + k) mod per_line <> 0) ->
    values_text c (line ++ rest)
    = join_space (map print_int line)
      ++ separator (c + Z.of_nat (length line))
         :: values_text (c + Z.of_nat (length line)) rest.
Proof.
  induction line as [|v line IH]; intros c rest Hne Hk; [congruence|].
  destruct line as [|v' line].
  - cbn. reflexivity.
  - change ((v :: v' :: line) ++ rest) with (v :: (v' :: line) ++ rest).
    cbn [values_text]. rewrite IH.
    + assert (Hs : separator (c + 1) = SP).
      { unfold separator. specialize (Hk 1).
        destruct (Z.eqb_spec ((c + 1) mod per_line) 0) as [E|_];
          [|reflexivity].
        exfalso. apply Hk; [cbn [length]; lia|exact E]. }
      rewrite Hs. cbn [map join_space length].
      rewrite <- app_assoc. cbn [app].
      replace (c + 1 + Z.of_nat (S (length line)))
        with (c + Z.of_nat (S (S (length line)))) by lia.
      reflexivity.
    + discriminate.
    + intros k Hk'. replace (c + 1 + k) with (c + (k + 1)) by lia.
      apply Hk. cbn [length] in *. lia.
Qed.

Lemma chunks_fuel_nil {A : Type} (fuel n : nat) :
  chunks_fuel fuel n (@nil A) = [].
Proof. destruct fuel; reflexivity. Qed.

Lemma separator_NL (c : Z) : c mod per_line = 0 -> separator c = NL.
Proof. unfold separator. intros ->. reflexivity. Qed.

Lemma separator_SP (c : Z) : c mod per_line <> 0 -> separator c = SP.
Proof.
  unfold separator. intros H.
  destruct (Z.eqb_spec (c mod per_line) 0); [contradiction|reflexivity].
Qed.

Lemma line_end_full (line : list Z) :
  length line = 15%nat -> line_end line = [NL].
Proof. unfold line_end. intros ->. reflexivity. Qed.

Lemma line_end_short (line : list Z) :
  length line <> 15%nat -> line_end line = [SP; NL].
Proof.
  unfold line_end. intros H.
  destruct (Nat.eqb_spec (length line) 15); [contradiction|reflexivity].
Qed.

Lemma mod_line_offset (c k : Z) :
  c mod per_line = 0 -> (c + k) mod per_line = k mod per_line.
Proof.
  unfold per_line. intros H.
  rewrite <- Z.add_mod_idemp_l, H by lia. reflexivity.
Qed.

Lemma body_chunks (fuel : nat) :
  forall (vals : list Z) (c : Z),
    (length vals <= fuel)%nat -> c mod per_line = 0 ->
    values_text c vals
    ++ (if (c + Z.of_nat (length vals)) mod per_line =? 0 then [] else [NL])
    = concat (map (fun line => join_space (map print_int line)
                               ++ line_end line)
                  (chunks_fuel fuel 15 vals)).
Proof.
  induction fuel as [|fuel IH]; intros vals c Hlen Hmod.
  - destruct vals; [|cbn in Hlen; lia]. cbn. rewrite Z.add_0_r, Hmod.
    reflexivity.
  - destruct vals as [|v vals].
    { cbn. rewrite Z.add_0_r, Hmod. reflexivity. }
    cbn [chunks_fuel map concat].
    set (l := v :: vals) in *.
    assert (Hl : l <> []) by discriminate.
    assert (Hll : (0 < length l)%nat) by (subst l; cbn [length]; lia).
    destruct (le_lt_dec 15 (length l)) as [Hge|Hlt].
    + assert (Ht : length (take 15 l) = 15%nat)
        by (rewrite length_take; lia).
      rewrite <- (IH (drop 15 l) (c + 15)).
      * rewrite line_end_full by exact Ht.
        rewrite <- (take_drop 15 l) at 1 2.
        rewrite values_text_line.
        -- rewrite length_app, !Ht.
           rewrite separator_NL
             by (rewrite mod_line_offset by exact Hmod; reflexivity).
           rewrite <- !app_assoc. cbn [app].
           replace (c + Z.of_nat (15 + length (drop 15 l)))
             with (c + 15 + Z.of_nat (length (drop 15 l))) by lia.
           reflexivity.
        -- intros E. rewrite E in Ht. discriminate.
        -- rewrite Ht. intros k Hk. rewrite mod_line_offset by exact Hmod.
           unfold per_line. rewrite Z.mod_small by lia. lia.
      * rewrite length_drop. lia.
      * rewrite mod_line_offset by exact Hmod. reflexivity.
    + rewrite take_ge, drop_ge, chunks_fuel_nil by lia.
      cbn [map concat]. rewrite app_nil_r.
      rewrite line_end_short by lia.
      assert (Hm : (c + Z.of_nat (length l)) mod per_line <> 0).
      { rewrite mod_line_offset by exact Hmod.
        unfold per_line. rewrite Z.mod_small by lia. lia. }
      destruct (Z.eqb_spec ((c + Z.of_nat (length l)) mod per_line) 0);
        [contradiction|].
      rewrite <- (app_nil_r l) at 1.
      rewrite values_text_line; [|exact Hl|].
      * cbn [values_text]. rewrite separator_SP by exact Hm.
        rewrite <- app_assoc. reflexivity.
      * intros k Hk. rewrite mod_line_offset by exact Hmod.
        unfold per_line. rewrite Z.mod_small by lia. lia.
Qed.

Lemma body_text_written (vals : list Z) : body_text vals = written_body vals.
Proof.
  unfold body_text, written_body, chunks.
  apply (body_chunks (length vals) vals 0); [lia|reflexivity].
Qed.

Lemma serialize_text (img : image) :
  valid_image img ->
  serialize img
  = Ok (print_header (width img) (height img) (max_value img)
        ++ body_text (channels img)).
Proof.
  intros Hv. unfold serialize.
  destruct (size_guard (width img) (height img)) as [_ Heq].
  - pose proof (valid_width _ Hv). pose proof (valid_height _ Hv).
    pose proof (valid_size _ Hv). unfold INT_MAX, MAX_VALS in *. nia.
  - pose proof (valid_width _ Hv). pose proof (valid_height _ Hv).
    pose proof (valid_size _ Hv). unfold INT_MAX, MAX_VALS in *. nia.
  - rewrite (Heq (valid_size _ Hv)).
    pose proof (valid_length _ Hv) as Hl. pose proof (valid_size _ Hv) as Hs.
    pose proof (valid_width _ Hv). pose proof (valid_height _ Hv).
    replace (width img * height img * 3)
      with (Z.of_nat (length (channels img))) by nia.
    apply print_values_text. unfold INT_MAX, MAX_VALS in *. nia.
Qed.

(** C5, as the code has it: the output is the header
    [P3\n{width} {height}\n{max_value}\n] followed by the channel values
    in lines of 15 decimal tokens, the tokens of a line separated by a
    single space; a full line ends with a newline directly after its 15th
    token, and a last line of fewer than 15 tokens ends with a space and
    a newline. *)
Theorem serialize_layout (img : image) :
  valid_image img ->
  serialize img
  = Ok (print_header (width img) (height img) (max_value img)
        ++ written_body (channels img)).
Proof.
  intros Hv. rewrite <- body_text_written. apply serialize_text. exact Hv.
Qed.

Lemma serialize_layout_witness :
  serialize (Image 2 1 255 [10; 20; 30; 200; 100; 0])
  = Ok (print_header 2 1 255 ++ written_body [10; 20; 30; 200; 100; 0]).
Proof.
  apply (serialize_layout (Image 2 1 255 [10; 20; 30; 200; 100; 0])).
  prove_valid.
Defined.

(** C5 as stated fails: a one-pixel image is written with a space
    between its last token and the final newline. *)
Lemma serialize_not_specified_layout :
  serialize (Image 1 1 255 [1; 2; 3])
  <> Ok (print_header 1 1 255 ++ specified_body [1; 2; 3]).
Proof. vm_compute. intros H. discriminate H. Qed.

(** ** Reading back what was written *)

Lemma reads_values_text (vals : list Z) :
  forall (c : Z) (ws : ascii) (tail : stream),
    isspace ws = true ->
    Forall (fun v => 0 <= v <= INT_MAX) vals ->
    exists s', reads (ws :: values_text c vals ++ tail) vals s'.
Proof.
  induction vals as [|v vals IH]; intros c ws tail Hws Hin.
  - eexists. constructor.
  - apply Forall_cons in Hin as [Hv Hin].
    destruct (IH (c + 1) (separator (c + 1)) tail (separator_space _) Hin)
      as (s' & Hr).
    exists s'. econstructor; [|exact Hr].
    cbn [values_text]. rewrite read_int_space by exact Hws.
    rewrite <- app_assoc. cbn [app].
    apply read_int_print; [exact Hv|apply ends_token_separator].
Qed.

Lemma length_malloc (f : nat -> Z) (n : Z) (buf : list Z) :
  malloc (Some f) n = Some buf -> length buf = Z.to_nat n.
Proof.
  cbn. intros H. injection H as <-. rewrite length_map, length_seq.
  reflexivity.
Qed.

(** C4: a valid image that is serialized and parsed again with the same
    header parser, tokenizer and pixel loader is the image itself: same
    width, height, max_value and channel values. *)
Theorem serialize_read_image (img : image) (f g : nat -> Z) :
  valid_image img ->
  exists text outpix,
    serialize img = Ok text
    /\ read_image (Some f) (Some g) text = Ok (img, outpix).
Proof.
  intros Hv. destruct img as [w h maxv pix].
  pose proof (valid_width _ Hv) as Hw. pose proof (valid_height _ Hv) as Hh.
  pose proof (valid_max_value _ Hv) as Hm. pose proof (valid_size _ Hv) as Hs.
  pose proof (valid_length _ Hv) as Hl.
  pose proof (valid_channels _ Hv) as Hc.
  cbn [width height max_value channels] in *.
  eexists. eexists. split; [apply serialize_text; exact Hv|].
  cbn [width height max_value channels].
  unfold read_image. rewrite read_header_print by assumption. cbn [bind].
  destruct (size_guard w h) as [_ Heq];
    [unfold INT_MAX, MAX_VALS in *; nia..|].
  rewrite (Heq Hs). cbn [malloc].
  destruct (reads_values_text pix 0 NL
              (if Z.of_nat (length pix) mod per_line =? 0 then [] else [NL])
              eq_refl) as (s' & Hr).
  { eapply Forall_impl; [exact Hc|]. unfold in_range, INT_MAX. intros v Hv'.
    lia. }
  fold (body_text pix) in Hr.
  rewrite (proj2 (read_pixels_success (w * h * 3) maxv
                    (map f (seq 0 (Z.to_nat (w * h * 3))))
                    (NL :: body_text pix) pix s'
                    ltac:(rewrite length_map, length_seq; reflexivity)))
    by (split; [exact Hr|split; assumption]).
  reflexivity.
Qed.

Lemma serialize_read_image_witness :
  exists text outpix,
    serialize (Image 1 2 255 [255; 0; 255; 0; 255; 1]) = Ok text
    /\ read_image (Some (fun _ => 0)) (Some (fun _ => 0)) text
       = Ok (Image 1 2 255 [255; 0; 255; 0; 255; 1], outpix).
Proof.
  apply (serialize_read_image (Image 1 2 255 [255; 0; 255; 0; 255; 1])).
  prove_valid.
Defined.

(** ** The whole program *)

Lemma for_loop_post {St : Type} (P : St -> Prop)
    (body : Z -> St -> result St) (n : nat) :
  forall (i : Z) (st st' : St),
    P st ->
    (forall j s s', P s -> body j s = Ok s' -> P s') ->
    for_loop n i body st = Ok st' -> P st'.
Proof.
  induction n as [|n IH]; intros i st st' HP Hstep H.
  - cbn in H. injection H as <-. exact HP.
  - cbn [for_loop] in H. apply bind_ok in H as (st1 & Hb & H).
    exact (IH _ _ _ (Hstep _ _ _ HP Hb) Hstep H).
Qed.

Lemma print_values_prefix (nvals : Z) (outpix : list Z)
    (out text : list ascii) :
  print_values nvals outpix out = Ok text -> exists rest, text = out ++ rest.
Proof.
  unfold print_values, for_range. intros H.
  apply bind_ok in H as ([o count] & Hl & H).
  apply (for_loop_post (fun st => exists rest, fst st = out ++ rest)) in Hl.
  - destruct Hl as (rest & Hr). cbn [fst] in Hr. subst o.
    destruct (negb (Z.rem count per_line =? 0)); injection H as <-.
    + exists (rest ++ [NL]). rewrite app_assoc. reflexivity.
    + exists rest. reflexivity.
  - exists []. cbn [fst]. rewrite app_nil_r. reflexivity.
  - intros j [o1 c1] [o2 c2] (rest & Hr) Hb. cbn [fst] in *. subst o1.
    unfold print_value_step in Hb.
    apply bind_ok in Hb as (v & _ & Hb).
    destruct (Z.rem (to_int (c1 + 1)) per_line =? 0); injection Hb as <- _;
      eexists; rewrite <- !app_assoc; reflexivity.
Qed.

(** C9: when the program completes, the image it writes has the width,
    height and max_value of the image it read, and the header of the
    output file parses to these three values. *)
Theorem main_preserves_header (pix_mem out_mem : option (nat -> Z))
    (input : stream) (text : list ascii) :
  main pix_mem out_mem input = Ok text ->
  exists img outpix out,
    read_image pix_mem out_mem input = Ok (img, outpix)
    /\ blur_image img outpix = Ok out
    /\ serialize out = Ok text
    /\ width out = width img /\ height out = height img
    /\ max_value out = max_value img
    /\ exists rest,
         read_header text
         = Ok (width img, height img, max_value img, rest).
Proof.
  unfold main. intros H.
  apply bind_ok in H as ([img outpix] & Hread & H).
  apply bind_ok in H as (out & Hblur & Hser).
  exists img, outpix, out. repeat (split; [assumption|]).
  unfold blur_image in Hblur.
  apply bind_ok in Hblur as (o & _ & Hout). injection Hout as <-.
  cbn [width height max_value]. repeat (split; [reflexivity|]).
  unfold read_image in Hread.
  apply bind_ok in Hread as ([[[w h] maxv] s] & Hhdr & Hread).
  destruct (malloc pix_mem (nvals_of w h)) as [pix|]; [|discriminate].
  destruct (malloc out_mem (nvals_of w h)) as [op|]; [|discriminate].
  apply bind_ok in Hread as ([p s'] & _ & Himg). injection Himg as <- _.
  cbn [width height max_value] in *.
  apply read_header_ok in Hhdr as (Hw & Hh & Hm & Hs & _).
  unfold serialize in Hser. cbn [width height max_value channels] in Hser.
  apply print_values_prefix in Hser as (rest & ->).
  exists (NL :: rest). apply read_header_print; assumption.
Qed.

Lemma main_preserves_header_witness :
  exists img outpix out,
    read_image (Some (fun _ => 0)) (Some (fun _ => 0))
      (str "P3 #c
2 1 255 1 2 3 4 5 6") = Ok (img, outpix)
    /\ blur_image img outpix = Ok out
    /\ serialize out = Ok (str "P3
2 1
255
2 3 4 3 4 5 
")
    /\ width out = width img /\ height out = height img
    /\ max_value out = max_value img
    /\ exists rest,
         read_header (str "P3
2 1
255
2 3 4 3 4 5 
") = Ok (width img, height img, max_value img, rest).
Proof.
  apply (main_preserves_header (Some (fun _ => 0)) (Some (fun _ => 0))).
  vm_compute. reflexivity.
Defined.

(** ** The size computation *)

Lemma skip_spaces_blank (ws : list ascii) (s : stream) :
  Forall (fun ch => isspace ch = true) ws ->
  skip_spaces (ws ++ s) = skip_spaces s.
Proof.
  induction 1 as [|ch ws Hch _ IH]; [reflexivity|].
  cbn [app skip_spaces]. rewrite Hch. exact IH.
Qed.

(** A format tag of two characters is read in full, whatever follows. *)
Lemma fscanf_2s_tag (ws : list ascii) (a b : ascii) (s : stream) :
  Forall (fun ch => isspace ch = true) ws ->
  isspace a = false -> isspace b = false ->
  fscanf_2s (ws ++ a :: b :: s) = Some ([a; b], s).
Proof.
  intros Hws Ha Hb. unfold fscanf_2s.
  rewrite skip_spaces_blank by exact Hws.
  cbn [skip_spaces]. rewrite Ha, Hb. reflexivity.
Qed.

(** The product [w * h] of two [int]s is a [long long]; three times it
    need not be one.  At [w = h = INT_MAX] the 64-bit value of [nvals]
    is negative, which the test [nvals <= 0] of line 83 rejects. *)
Lemma nvals_of_int_max :
  is_ll (INT_MAX * INT_MAX)
  /\ ~ is_ll (INT_MAX * INT_MAX * 3)
  /\ nvals_of INT_MAX INT_MAX = -4611686031312289789.
Proof.
  unfold is_ll, INT_MAX, LLONG_MIN, LLONG_MAX.
  repeat split; try lia; try (vm_compute; congruence).
Qed.



(** ** Comments between tokens *)

Lemma skip_blanks_cons (ch : ascii) (s : stream) :
  skip_blanks (ch :: s)
  = if isspace ch then skip_blanks s
    else if Ascii.eqb ch HASH then
      match skip_comment s with
      | Some t => skip_blanks t
      | None => None
      end
    else Some (ch :: s).
Proof.
  cbn [skip_blanks]. destruct (isspace ch); [reflexivity|].
  destruct (Ascii.eqb ch HASH); [|reflexivity].
  induction s as [|d s IH]; [reflexivity|].
  cbn [skip_comment]. destruct (Ascii.eqb d NL); [reflexivity|exact IH].
Qed.

Lemma between_tokens_tail (ch : ascii) (p q : stream) :
  between_tokens (ch :: p) q -> between_tokens p q.
Proof.
  unfold between_tokens. intros [H|[H|H]]; [discriminate| |auto].
  destruct p as [|d p]; [left; reflexivity|]. right. left. exact H.
Qed.

Lemma ends_blank_tail (ch : ascii) (p : stream) :
  isspace ch = false -> ends_blank (ch :: p) = true -> ends_blank p = true.
Proof.
  intros Hch H. destruct p as [|d p]; [|exact H].
  cbn in H. congruence.
Qed.

Lemma skip_comment_text (c : list ascii) (t : stream) :
  no_newline c -> skip_comment (c ++ NL :: t) = Some t.
Proof.
  induction 1 as [|ch c' Hch _ IH]; [reflexivity|].
  cbn [app skip_comment]. rewrite Hch. exact IH.
Qed.

Section Comment.

Variables (c : list ascii) (q : stream).
Hypothesis Hc : no_newline c.

Local Abbreviation token_related := (token_related c q).
Local Abbreviation skip_related := (skip_related c q).

Lemma skip_blanks_comment : skip_blanks (comment c ++ q) = skip_blanks q.
Proof.
  unfold comment. cbn [app]. rewrite skip_blanks_cons.
  change (isspace HASH) with false. change (Ascii.eqb HASH HASH) with true.
  cbv iota. rewrite <- app_assoc. cbn [app].
  rewrite skip_comment_text by exact Hc. reflexivity.
Qed.

Lemma skip_related_refl (o : option stream) : skip_related o o.
Proof. destruct o; cbn; [left; reflexivity|exact I]. Qed.

Lemma skip_phase (p : stream) :
  (in_comment false p = false -> between_tokens p q ->
   skip_related (skip_blanks (p ++ comment c ++ q)) (skip_blanks (p ++ q)))
  /\ (in_comment true p = false -> between_tokens p q ->
      skip_related
        (match skip_comment (p ++ comment c ++ q) with
         | Some t => skip_blanks t
         | None => None
         end)
        (match skip_comment (p ++ q) with
         | Some t => skip_blanks t
         | None => None
         end)).
Proof.
  induction p as [|ch p [IHb IHc]]; split.
  - intros _ _. cbn [app]. rewrite skip_blanks_comment.
    apply skip_related_refl.
  - cbn. discriminate.
  - intros Hin Hbt. cbn [app]. rewrite !skip_blanks_cons.
    cbn [in_comment] in Hin.
    destruct (isspace ch) eqn:Hsp.
    + destruct (Ascii.eqb ch HASH) eqn:Hh.
      * apply Ascii.eqb_eq in Hh. subst ch. discriminate.
      * apply IHb; [exact Hin|]. exact (between_tokens_tail _ _ _ Hbt).
    + destruct (Ascii.eqb ch HASH) eqn:Hh.
      * apply IHc; [exact Hin|]. exact (between_tokens_tail _ _ _ Hbt).
      * cbn. right. exists ch, p. auto 10.
  - intros Hin Hbt. cbn [app skip_comment]. cbn [in_comment] in Hin.
    destruct (Ascii.eqb ch NL) eqn:Hn; cbn [negb] in Hin.
    + apply IHb; [exact Hin|]. exact (between_tokens_tail _ _ _ Hbt).
    + apply IHc; [exact Hin|]. exact (between_tokens_tail _ _ _ Hbt).
Qed.

Lemma starts_blank_stop (acc : option Z) :
  starts_blank q = true -> scan_digits acc q = (acc, q).
Proof.
  destruct q as [|ch q']; [reflexivity|]. cbn. intros Hsp.
  destruct (isdigit ch) eqn:Hd; [|reflexivity].
  destruct (digit_not_blank ch Hd) as (Hs & _). congruence.
Qed.

Lemma scan_phase (p : stream) :
  forall acc : option Z,
    in_comment false p = false ->
    ends_blank p = true \/ starts_blank q = true ->
    exists a t1 t2,
      scan_digits acc (p ++ comment c ++ q) = (a, t1)
      /\ scan_digits acc (p ++ q) = (a, t2)
      /\ related c q t1 t2.
Proof.
  induction p as [|ch p IH]; intros acc Hin Hcond.
  - destruct Hcond as [Hcond|Hcond]; [discriminate|].
    exists acc, (comment c ++ q), q. split; [reflexivity|]. split.
    + apply starts_blank_stop. exact Hcond.
    + right. exists []. repeat split. left. reflexivity.
  - cbn [app scan_digits]. destruct (isdigit ch) eqn:Hd.
    + destruct (digit_not_blank ch Hd) as (Hs & Hh & _).
      apply IH.
      * cbn [in_comment] in Hin. rewrite Hh in Hin. exact Hin.
      * destruct Hcond as [Hcond|Hcond]; [left|right; exact Hcond].
        exact (ends_blank_tail _ _ Hs Hcond).
    + exists acc, (ch :: p ++ comment c ++ q), (ch :: p ++ q).
      repeat split. right. exists (ch :: p). repeat split; [exact Hin|].
      destruct Hcond as [Hcond|Hcond]; right; auto.
Qed.

Lemma fscanf_d_related (t1 t2 : stream) :
  token_related t1 t2 ->
  match fscanf_d t1, fscanf_d t2 with
  | Some (v1, r1), Some (v2, r2) => v1 = v2 /\ related c q r1 r2
  | None, None => True
  | _, _ => False
  end.
Proof.
  intros [->|(ch & p & -> & -> & Hsp & Hh & Hin & Hbt)].
  - destruct (fscanf_d t2) as [[v r]|]; [|exact I].
    split; [reflexivity|left; reflexivity].
  - assert (Hcond : ends_blank (ch :: p) = true \/ starts_blank q = true).
    { destruct Hbt as [Hbt|Hbt]; [discriminate|exact Hbt]. }
    unfold fscanf_d. cbn [skip_spaces]. rewrite Hsp.
    destruct (Ascii.eqb ch MINUS) eqn:Hm;
      [|destruct (Ascii.eqb ch PLUS) eqn:Hp].
    + destruct (scan_phase p None Hin) as (a & r1 & r2 & -> & -> & Hr).
      { destruct Hcond as [Hcond|Hcond]; [left|right; exact Hcond].
        exact (ends_blank_tail _ _ Hsp Hcond). }
      destruct a as [n|]; [|exact I]. split; [reflexivity|exact Hr].
    + destruct (scan_phase p None Hin) as (a & r1 & r2 & -> & -> & Hr).
      { destruct Hcond as [Hcond|Hcond]; [left|right; exact Hcond].
        exact (ends_blank_tail _ _ Hsp Hcond). }
      destruct a as [n|]; [|exact I]. split; [reflexivity|exact Hr].
    + destruct (scan_phase (ch :: p) None) as (a & r1 & r2 & E1 & E2 & Hr).
      { cbn [in_comment]. rewrite Hh. exact Hin. }
      { exact Hcond. }
      cbn [app] in E1, E2. rewrite E1, E2.
      destruct a as [n|]; [|exact I]. split; [reflexivity|exact Hr].
Qed.

Lemma read_int_related (s1 s2 : stream) :
  related c q s1 s2 -> same_result c q (read_int s1) (read_int s2).
Proof.
  intros Hrel.
  assert (Hskip : skip_related (skip_blanks s1) (skip_blanks s2)).
  { destruct Hrel as [->|(p & -> & -> & Hin & Hbt)].
    - apply skip_related_refl.
    - apply skip_phase; assumption. }
  unfold read_int.
  destruct (skip_blanks s1) as [t1|], (skip_blanks s2) as [t2|];
    cbn in Hskip; try contradiction.
  - pose proof (fscanf_d_related t1 t2 Hskip) as Hf.
    destruct (fscanf_d t1) as [[v1 r1]|], (fscanf_d t2) as [[v2 r2]|];
      try contradiction.
    + destruct Hf as [-> Hr]. cbn. auto.
    + reflexivity.
  - cbn. split; [reflexivity|left; reflexivity].
Qed.

Lemma read_tokens_related (n : nat) :
  forall s1 s2, related c q s1 s2 -> read_tokens n s1 = read_tokens n s2.
Proof.
  induction n as [|n IH]; intros s1 s2 Hrel; [reflexivity|].
  cbn [read_tokens]. pose proof (read_int_related s1 s2 Hrel) as Hr.
  destruct (read_int s1) as [[[v1|] r1]|e1], (read_int s2) as [[[v2|] r2]|e2];
    cbn in Hr; try contradiction; try (destruct Hr; discriminate);
    try reflexivity.
  destruct Hr as [Hv Hr]. injection Hv as ->.
  rewrite (IH r1 r2 Hr). reflexivity.
Qed.

Lemma need_int_related (e : error) (s1 s2 : stream) :
  related c q s1 s2 -> same_result c q (need_int e s1) (need_int e s2).
Proof.
  intros Hrel. unfold need_int.
  pose proof (read_int_related s1 s2 Hrel) as Hr.
  destruct (read_int s1) as [[[v1|] r1]|e1], (read_int s2) as [[[v2|] r2]|e2];
    cbn in Hr |- *; try contradiction; try (destruct Hr; discriminate);
    try reflexivity; try assumption.
  destruct Hr as [Hv Hr]. injection Hv as ->. auto.
Qed.

Lemma read_loop_related (maxv : Z) (n : nat) :
  forall (i : Z) (buf : list Z) (s1 s2 : stream),
    related c q s1 s2 ->
    same_result c q
      (for_loop n i (read_pixel_step maxv) (buf, s1))
      (for_loop n i (read_pixel_step maxv) (buf, s2)).
Proof.
  induction n as [|n IH]; intros i buf s1 s2 Hrel.
  - cbn. auto.
  - cbn [for_loop read_pixel_step].
    pose proof (read_int_related s1 s2 Hrel) as Hr.
    destruct (read_int s1) as [[[v1|] r1]|e1],
             (read_int s2) as [[[v2|] r2]|e2];
      cbn in Hr |- *; try contradiction; try (destruct Hr; discriminate);
      try reflexivity; try assumption.
    destruct Hr as [Hv Hr]. injection Hv as ->.
    destruct ((v2 <? 0) || (v2 >? maxv)); [reflexivity|].
    destruct (store buf i v2) as [buf'|e]; [|reflexivity].
    cbn [bind]. apply IH. exact Hr.
Qed.

Lemma read_header_related (ws : list ascii) (a b : ascii) (p : stream) :
  Forall (fun ch => isspace ch = true) ws ->
  isspace a = false -> isspace b = false ->
  in_comment false p = false -> between_tokens p q ->
  same_result c q
    (read_header (ws ++ a :: b :: p ++ comment c ++ q))
    (read_header (ws ++ a :: b :: p ++ q)).
Proof.
  intros Hws Ha Hb Hin Hbt. unfold read_header.
  rewrite !(fscanf_2s_tag ws a b) by assumption.
  cbn [of_option bind].
  destruct (negb (strcmp_eq (c_string [a; b]) (str "P3"))); [reflexivity|].
  assert (Hrel : related c q (p ++ comment c ++ q) (p ++ q)).
  { right. exists p. auto. }
  pose proof (need_int_related TruncatedHeader _ _ Hrel) as Hw.
  destruct (need_int TruncatedHeader (p ++ comment c ++ q)) as [[w r1]|e1],
           (need_int TruncatedHeader (p ++ q)) as [[w' r1']|e1'];
    cbn in Hw |- *; try contradiction; try assumption.
  destruct Hw as [<- Hrel1].
  pose proof (need_int_related TruncatedHeader _ _ Hrel1) as Hh.
  destruct (need_int TruncatedHeader r1) as [[h r2]|e2],
           (need_int TruncatedHeader r1') as [[h' r2']|e2'];
    cbn in Hh |- *; try contradiction; try assumption.
  destruct Hh as [<- Hrel2].
  pose proof (need_int_related TruncatedHeader _ _ Hrel2) as Hm.
  destruct (need_int TruncatedHeader r2) as [[m r3]|e3],
           (need_int TruncatedHeader r2') as [[m' r3']|e3'];
    cbn in Hm |- *; try contradiction; try assumption.
  destruct Hm as [<- Hrel3].
  destruct (check_header w h m) as [nvals|e]; cbn; auto.
Qed.

End Comment.

(** C7: a comment, from [#] to the end of its line, put between two
    tokens of a stream changes nothing in what is parsed: the same
    integers in the same order and the same outcome, for any number of
    [read_int] calls and, behind a format tag, for the header and pixel
    parser of [main]. *)
Theorem comment_between_tokens (c : list ascii) (p q : stream) :
  no_newline c ->
  in_comment false p = false ->
  between_tokens p q ->
  (forall n, read_tokens n (p ++ comment c ++ q) = read_tokens n (p ++ q))
  /\ (forall pix_mem out_mem ws a b,
        Forall (fun ch => isspace ch = true) ws ->
        isspace a = false -> isspace b = false ->
        read_image pix_mem out_mem (ws ++ a :: b :: p ++ comment c ++ q)
        = read_image pix_mem out_mem (ws ++ a :: b :: p ++ q)).
Proof.
  intros Hc Hin Hbt. split.
  - intros n. apply (read_tokens_related c q Hc).
    right. exists p. auto.
  - intros pix_mem out_mem ws a b Hws Ha Hb. unfold read_image.
    pose proof (read_header_related c q Hc ws a b p Hws Ha Hb Hin Hbt) as Hh.
    destruct (read_header (ws ++ a :: b :: p ++ comment c ++ q))
      as [[[[w h] maxv] s1]|e1],
      (read_header (ws ++ a :: b :: p ++ q)) as [[[[w' h'] maxv'] s2]|e2];
      cbn in Hh |- *; try contradiction; [|congruence].
    destruct Hh as [Heq Hrel]. injection Heq as <- <- <-.
    destruct (malloc pix_mem (nvals_of w h)) as [pix|]; [|reflexivity].
    destruct (malloc out_mem (nvals_of w h)) as [outpix|]; [|reflexivity].
    unfold read_pixels, for_range.
    pose proof (read_loop_related c q Hc maxv
                  (Z.to_nat (nvals_of w h - 0)) 0 pix s1 s2 Hrel) as Hl.
    destruct (for_loop _ _ _ (pix, s1)) as [[b1 t1]|e1],
             (for_loop _ _ _ (pix, s2)) as [[b2 t2]|e2];
      cbn in Hl |- *; try contradiction; [|congruence].
    destruct Hl as [<- _]. reflexivity.
Qed.

Lemma comment_between_tokens_witness :
  (forall n,
     read_tokens n (str " 2 1" ++ comment (str " size") ++ str " 255 1 2 3")
     = read_tokens n (str " 2 1" ++ str " 255 1 2 3"))
  /\ (forall pix_mem out_mem ws a b,
        Forall (fun ch => isspace ch = true) ws ->
        isspace a = false -> isspace b = false ->
        read_image pix_mem out_mem
          (ws ++ a :: b :: str " 2 1" ++ comment (str " size")
                             ++ str " 255 1 2 3")
        = read_image pix_mem out_mem
            (ws ++ a :: b :: str " 2 1" ++ str " 255 1 2 3")).
Proof.
  apply (comment_between_tokens (str " size") (str " 2 1")
           (str " 255 1 2 3")).
  - repeat constructor.
  - reflexivity.
  - right. right. reflexivity.
Defined.

(** ** Completion of the program *)

Lemma read_image_valid (pix_mem out_mem : option (nat -> Z))
    (input : stream) (img : image) (outpix : list Z) :
  read_image pix_mem out_mem input = Ok (img, outpix) ->
  valid_image img /\ length outpix = length (channels img).
Proof.
  unfold read_image. intros H.
  apply bind_ok in H as ([[[w h] maxv] s] & Hhdr & H).
  apply read_header_ok in Hhdr as (Hw & Hh & Hm & Hs & Hn).
  rewrite Hn in H.
  destruct pix_mem as [f|]; [|discriminate].
  destruct out_mem as [g|]; [|discriminate]. cbn [malloc] in H.
  apply bind_ok in H as ([pix s'] & Hpix & H). injection H as <- <-.
  apply read_pixels_success in Hpix as (_ & Hl & Hin);
    [|rewrite length_map, length_seq; reflexivity].
  split.
  - constructor; cbn [width height max_value channels]; assumption.
  - cbn [channels]. rewrite length_map, length_seq, Hl. reflexivity.
Qed.

(** Once the input file has been read, the blur and the serializer
    cannot fail: the program writes its output. *)
Lemma main_completes (pix_mem out_mem : option (nat -> Z))
    (input : stream) (img : image) (outpix : list Z) :
  read_image pix_mem out_mem input = Ok (img, outpix) ->
  exists text, main pix_mem out_mem input = Ok text.
Proof.
  intros H. unfold main. rewrite H. cbn [bind].
  apply read_image_valid in H as [Hv Hl].
  destruct img as [w h maxv pix]. cbn [channels] in Hl.
  destruct (blur_in_range w h maxv pix outpix Hv Hl)
    as (out & Hb & Hlo & Hin).
  unfold blur_image. cbn [width height max_value channels].
  rewrite Hb. cbn [bind].
  eexists. apply serialize_text.
  constructor; cbn [width height max_value channels];
    try apply Hv; [|exact Hin].
  rewrite Hlo. apply Hv.
Qed.

(** * Further properties *)

(** ** The function [clamp] *)

(** X1: when [lo <= hi], [clamp] is a monotone projection onto
    [lo, hi]: its value is in the interval, values of the interval are
    kept, and clamping twice is clamping once. *)
Theorem clamp_projection (lo hi : Z) :
  lo <= hi ->
  (forall v, lo <= clamp v lo hi <= hi)
  /\ (forall v, lo <= v <= hi -> clamp v lo hi = v)
  /\ (forall v, clamp (clamp v lo hi) lo hi = clamp v lo hi)
  /\ (forall v1 v2, v1 <= v2 -> clamp v1 lo hi <= clamp v2 lo hi).
Proof.
  intros H. split; [|split; [|split]].
  - intros v. apply clamp_bounds; exact H.
  - intros v. apply clamp_id.
  - intros v. apply clamp_id. apply clamp_bounds. exact H.
  - intros v1 v2 Hv. unfold clamp.
    destruct (Z.ltb_spec v1 lo), (Z.ltb_spec v2 lo),
      (Z.gtb_spec v1 hi), (Z.gtb_spec v2 hi); lia.
Qed.

Lemma clamp_projection_witness :
  (forall v, 0 <= clamp v 0 255 <= 255)
  /\ (forall v, 0 <= v <= 255 -> clamp v 0 255 = v)
  /\ (forall v, clamp (clamp v 0 255) 0 255 = clamp v 0 255)
  /\ (forall v1 v2, v1 <= v2 -> clamp v1 0 255 <= clamp v2 0 255).
Proof. apply (clamp_projection 0 255). lia. Defined.

(** ** More on the convolution *)

Lemma sumZ_weighted_range {A : Type} (P : A -> Prop) (wt g : A -> Z)
    (lo hi : Z) (l : list A) :
  Forall P l ->
  (forall a, P a -> 0 <= wt a) ->
  (forall a, P a -> lo <= g a <= hi) ->
  sumZ wt l * lo <= sumZ (fun a => wt a * g a) l <= sumZ wt l * hi.
Proof.
  intros HP Hwt Hg. induction HP as [|a l Ha HP IH]; cbn; [lia|].
  specialize (Hwt a Ha). specialize (Hg a Ha).
  fold (sumZ (fun a => wt a * g a) l). fold (sumZ wt l). nia.
Qed.

Lemma sumZ_weighted_mono {A : Type} (P : A -> Prop) (wt g1 g2 : A -> Z)
    (l : list A) :
  Forall P l ->
  (forall a, P a -> 0 <= wt a) ->
  (forall a, P a -> g1 a <= g2 a) ->
  sumZ (fun a => wt a * g1 a) l <= sumZ (fun a => wt a * g2 a) l.
Proof.
  intros HP Hwt Hg. induction HP as [|a l Ha HP IH]; cbn; [lia|].
  specialize (Hwt a Ha). specialize (Hg a Ha).
  fold (sumZ (fun a => wt a * g1 a) l). fold (sumZ (fun a => wt a * g2 a) l).
  nia.
Qed.

Lemma reference_acc_pairs (w h : Z) (pix : list Z) (x y c : Z) :
  reference_acc w h pix x y c
  = sumZ (fun p => weight (fst p) (snd p)
                   * input_at w pix (clamp (y + snd p) 0 (h - 1))
                       (clamp (x + fst p) 0 (w - 1)) c)
         (list_prod offsets offsets).
Proof.
  unfold reference_acc. apply (sumZ_ext _ _ _ _ offsets_in_range).
  intros [kx ky] _. reflexivity.
Qed.

Lemma sample_coords (w h x y kx ky : Z) :
  0 < w -> 0 < h -> 0 <= x < w -> 0 <= y < h ->
  0 <= clamp (x + kx) 0 (w - 1) < w /\ 0 <= clamp (y + ky) 0 (h - 1) < h.
Proof.
  intros Hw Hh Hx Hy.
  pose proof (clamp_bounds (x + kx) 0 (w - 1) ltac:(lia)).
  pose proof (clamp_bounds (y + ky) 0 (h - 1) ltac:(lia)). lia.
Qed.

Lemma weight_nonneg (p : Z * Z) :
  is_offset (fst p) /\ is_offset (snd p) -> 0 <= weight (fst p) (snd p).
Proof.
  intros [Hx Hy]. pose proof (weight_bounds _ _ Hx Hy). lia.
Qed.

Lemma rounded_between (acc lo hi : Z) :
  81 * lo <= acc <= 81 * hi -> lo <= (acc + 81 / 2) / 81 <= hi.
Proof.
  intros H. change (81 / 2) with 40. split.
  - apply Z.div_le_lower_bound; lia.
  - apply Z.lt_succ_r. apply Z.div_lt_upper_bound; lia.
Qed.

Section Extra.

Variables (w h maxv : Z) (pix : list Z).
Hypothesis Hvalid : valid_image (Image w h maxv pix).

Lemma reference_pixel_rounded (x y c : Z) :
  0 <= x < w -> 0 <= y < h -> 0 <= c < 3 ->
  reference_pixel w h maxv pix x y c = reference_rounded w h pix x y c.
Proof.
  intros Hx Hy Hc. unfold reference_pixel. apply clamp_id.
  apply (reference_rounded_range w h maxv pix Hvalid); assumption.
Qed.

Lemma reference_pixel_between (lo hi x y c : Z) :
  0 <= x < w -> 0 <= y < h -> 0 <= c < 3 ->
  (forall x' y', 0 <= x' < w -> 0 <= y' < h ->
     lo <= input_at w pix y' x' c <= hi) ->
  lo <= reference_pixel w h maxv pix x y c <= hi.
Proof.
  intros Hx Hy Hc Hin. rewrite reference_pixel_rounded by assumption.
  unfold reference_rounded. apply rounded_between.
  rewrite reference_acc_pairs.
  pose proof (sumZ_weighted_range _ (fun p => weight (fst p) (snd p))
                (fun p => input_at w pix (clamp (y + snd p) 0 (h - 1))
                            (clamp (x + fst p) 0 (w - 1)) c)
                lo hi _ offsets_in_range weight_nonneg) as Hs.
  rewrite kernel_sum in Hs. unfold KSUM in Hs.
  apply Hs.
  intros [kx ky] _. cbn [fst snd].
  destruct (sample_coords w h x y kx ky) as [Hsx Hsy];
    try assumption; try apply Hvalid.
  apply Hin; assumption.
Qed.

End Extra.

Lemma blur_at (w h maxv : Z) (pix outpix out : list Z) (x y c : Z) :
  valid_image (Image w h maxv pix) ->
  length outpix = length pix ->
  blur w h maxv pix outpix = Ok out ->
  0 <= x < w -> 0 <= y < h -> 0 <= c < 3 ->
  out !! Z.to_nat (pixel_index w x y c)
  = Some (reference_pixel w h maxv pix x y c).
Proof.
  intros Hv Hl Hb Hx Hy Hc.
  rewrite (blur_reference w h maxv pix Hv outpix Hl) in Hb.
  injection Hb as <-.
  rewrite lookup_reference
    by (apply (pixel_index_bounds w h maxv pix Hv); assumption).
  unfold reference_flat.
  destruct (coords_of_index w x y c) as (-> & -> & ->); [lia..|].
  reflexivity.
Qed.

(** X13: the blur never leaves the range of a channel: when every value
    of channel [c] of the input is in [lo, hi], so is every value of
    channel [c] of the output. *)
Theorem blur_channel_range (img : image) (outpix : list Z) (c lo hi : Z) :
  valid_image img ->
  length outpix = length (channels img) ->
  0 <= c < 3 ->
  (forall x y, 0 <= x < width img -> 0 <= y < height img ->
     lo <= input_at (width img) (channels img) y x c <= hi) ->
  exists out,
    blur (width img) (height img) (max_value img) (channels img) outpix
    = Ok out
    /\ forall x y, 0 <= x < width img -> 0 <= y < height img ->
         exists v,
           out !! Z.to_nat (pixel_index (width img) x y c) = Some v
           /\ lo <= v <= hi.
Proof.
  destruct img as [w h maxv pix]. cbn [width height max_value channels].
  intros Hv Hl Hc Hin.
  exists (reference_flat w h maxv pix <$> seqZ 0 (w * h * 3)).
  pose proof (blur_reference w h maxv pix Hv outpix Hl) as Hb.
  split; [exact Hb|]. intros x y Hx Hy. eexists. split.
  - exact (blur_at w h maxv pix outpix _ x y c Hv Hl Hb Hx Hy Hc).
  - apply (reference_pixel_between w h maxv pix Hv); assumption.
Qed.

Lemma blur_channel_range_witness :
  exists out,
    blur 2 1 255 [10; 20; 30; 200; 100; 0] [7; 7; 7; 7; 7; 7] = Ok out
    /\ forall x y, 0 <= x < 2 -> 0 <= y < 1 ->
         exists v,
           out !! Z.to_nat (pixel_index 2 x y 1) = Some v
           /\ 20 <= v <= 100.
Proof.
  apply (blur_channel_range (Image 2 1 255 [10; 20; 30; 200; 100; 0])
           [7; 7; 7; 7; 7; 7] 1 20 100);
    [prove_valid|reflexivity|lia|].
  cbn [width height channels]. intros x y Hx Hy.
  assert (Ey : y = 0) by lia. assert (Ex : x = 0 \/ x = 1) by lia.
  subst y. destruct Ex as [->| ->]; vm_compute; split; discriminate.
Defined.

Lemma input_at_mono (w : Z) (pix1 pix2 : list Z) (y x c : Z) :
  Forall2 Z.le pix1 pix2 ->
  input_at w pix1 y x c <= input_at w pix2 y x c.
Proof.
  intros H. unfold input_at.
  destruct (pix1 !! Z.to_nat (pixel_index w x y c)) as [v1|] eqn:E1.
  - destruct (Forall2_lookup_l _ _ _ _ _ H E1) as (v2 & -> & Hle).
    exact Hle.
  - apply lookup_ge_None in E1. rewrite (Forall2_length _ _ _ H) in E1.
    apply lookup_ge_None in E1. rewrite E1. reflexivity.
Qed.

Lemma clamp_mono (v1 v2 lo hi : Z) :
  lo <= hi -> v1 <= v2 -> clamp v1 lo hi <= clamp v2 lo hi.
Proof.
  intros H Hv. unfold clamp.
  destruct (Z.ltb_spec v1 lo), (Z.ltb_spec v2 lo),
    (Z.gtb_spec v1 hi), (Z.gtb_spec v2 hi); lia.
Qed.

Lemma reference_pixel_mono (w h maxv : Z) (pix1 pix2 : list Z) (x y c : Z) :
  0 <= maxv -> Forall2 Z.le pix1 pix2 ->
  reference_pixel w h maxv pix1 x y c <= reference_pixel w h maxv pix2 x y c.
Proof.
  intros Hm H. unfold reference_pixel, reference_rounded.
  apply clamp_mono; [exact Hm|]. apply Z.div_le_mono; [lia|].
  apply Z.add_le_mono_r. rewrite !reference_acc_pairs.
  apply (sumZ_weighted_mono _ (fun p => weight (fst p) (snd p))
           (fun p => input_at w pix1 _ _ c) (fun p => input_at w pix2 _ _ c)
           _ offsets_in_range weight_nonneg).
  intros p _. apply input_at_mono. exact H.
Qed.

(** X15: the blur is monotone: an input that is nowhere smaller gives
    an output that is nowhere smaller. *)
Theorem blur_monotone (w h maxv : Z) (pix1 pix2 out1 out2 : list Z) :
  valid_image (Image w h maxv pix1) ->
  valid_image (Image w h maxv pix2) ->
  length out1 = length pix1 -> length out2 = length pix2 ->
  Forall2 Z.le pix1 pix2 ->
  exists res1 res2,
    blur w h maxv pix1 out1 = Ok res1
    /\ blur w h maxv pix2 out2 = Ok res2
    /\ Forall2 Z.le res1 res2.
Proof.
  intros Hv1 Hv2 Hl1 Hl2 Hle.
  exists (reference_flat w h maxv pix1 <$> seqZ 0 (w * h * 3)),
         (reference_flat w h maxv pix2 <$> seqZ 0 (w * h * 3)).
  split; [exact (blur_reference w h maxv pix1 Hv1 out1 Hl1)|].
  split; [exact (blur_reference w h maxv pix2 Hv2 out2 Hl2)|].
  apply Forall2_fmap, Forall_Forall2_diag, Forall_forall. intros i _.
  unfold reference_flat. apply reference_pixel_mono; [|exact Hle].
  pose proof (valid_max_value _ Hv1) as Hm. cbn in Hm. lia.
Qed.

Lemma blur_monotone_witness :
  exists res1 res2,
    blur 1 1 255 [10; 20; 30] [0; 0; 0] = Ok res1
    /\ blur 1 1 255 [10; 25; 255] [0; 0; 0] = Ok res2
    /\ Forall2 Z.le res1 res2.
Proof.
  apply (blur_monotone 1 1 255 [10; 20; 30] [10; 25; 255]);
    [prove_valid|prove_valid|reflexivity|reflexivity|].
  repeat (apply List.Forall2_cons; [lia|]). apply List.Forall2_nil.
Defined.

(** *** Images of one colour *)

Lemma length_uniform_color (n : nat) (r g b : Z) :
  length (uniform_color n r g b) = (3 * n)%nat.
Proof.
  unfold uniform_color. induction n as [|n IH]; [reflexivity|].
  cbn [replicate concat]. rewrite length_app, IH. cbn [length]. lia.
Qed.

Lemma lookup_uniform_color (n : nat) (r g b : Z) (k c : nat) :
  (k < n)%nat -> (c < 3)%nat ->
  uniform_color n r g b !! (3 * k + c)%nat = [r; g; b] !! c.
Proof.
  unfold uniform_color. revert k.
  induction n as [|n IH]; intros k Hk Hc; [lia|].
  cbn [replicate concat]. destruct k as [|k].
  - rewrite lookup_app_l by (cbn [length]; lia). reflexivity.
  - rewrite lookup_app_r by (cbn [length]; lia). cbn [length].
    replace (3 * S k + c - 3)%nat with (3 * k + c)%nat by lia.
    apply IH; lia.
Qed.

Lemma Forall_uniform_color (P : Z -> Prop) (n : nat) (r g b : Z) :
  P r -> P g -> P b -> Forall P (uniform_color n r g b).
Proof.
  intros Hr Hg Hb. unfold uniform_color.
  induction n as [|n IH]; [constructor|].
  cbn [replicate concat]. apply Forall_app. split; [|exact IH].
  repeat constructor; assumption.
Qed.

Lemma input_at_uniform_color (w h r g b x y c : Z) :
  0 < w -> 0 < h -> 0 <= x < w -> 0 <= y < h -> 0 <= c < 3 ->
  input_at w (uniform_color (Z.to_nat (w * h)) r g b) y x c
  = default 0 ([r; g; b] !! Z.to_nat c).
Proof.
  intros Hw Hh Hx Hy Hc. unfold input_at, pixel_index. f_equal.
  replace (Z.to_nat ((y * w + x) * 3 + c))
    with (3 * Z.to_nat (y * w + x) + Z.to_nat c)%nat by nia.
  apply lookup_uniform_color; [nia|lia].
Qed.

(** X14: an image whose pixels all have the same colour [(r, g, b)] is
    reproduced exactly, whatever the three channel values are. *)
Theorem blur_uniform_color (w h maxv r g b : Z) (outpix : list Z) :
  0 < w -> 0 < h -> 1 <= maxv <= 65535 -> w * h * 3 <= MAX_VALS ->
  0 <= r <= maxv -> 0 <= g <= maxv -> 0 <= b <= maxv ->
  length outpix = Z.to_nat (w * h * 3) ->
  blur w h maxv (uniform_color (Z.to_nat (w * h)) r g b) outpix
  = Ok (uniform_color (Z.to_nat (w * h)) r g b).
Proof.
  intros Hw Hh Hm Hs Hr Hg Hb Hl.
  set (pix := uniform_color (Z.to_nat (w * h)) r g b).
  assert (Hv : valid_image (Image w h maxv pix)).
  { constructor; cbn [width height max_value channels]; try assumption.
    - unfold pix. rewrite length_uniform_color. nia.
    - apply Forall_uniform_color; assumption. }
  assert (Hlp : length pix = Z.to_nat (w * h * 3)) by apply Hv.
  rewrite (blur_reference w h maxv pix Hv) by congruence.
  f_equal. apply list_eq. intros i. rewrite list_lookup_fmap.
  destruct (decide (Z.of_nat i < w * h * 3)) as [Hi|Hi].
  - rewrite lookup_seqZ_lt by lia. rewrite Z.add_0_l. cbn [fmap option_fmap option_map].
    destruct (index_of_coords w (Z.of_nat i) Hw ltac:(lia))
      as (Hidx & Hx & Hc & Hy).
    pose proof (y_of_bound w h (Z.of_nat i) Hw ltac:(lia)) as Hy'.
    unfold reference_flat.
    set (V := default 0 ([r; g; b] !! Z.to_nat (c_of (Z.of_nat i)))).
    assert (E : reference_pixel w h maxv pix (x_of w (Z.of_nat i))
                  (y_of w (Z.of_nat i)) (c_of (Z.of_nat i)) = V).
    { apply Z.le_antisymm;
        apply (reference_pixel_between w h maxv pix Hv V V);
        try lia; intros x' y' Hx' Hy'';
        unfold pix; rewrite input_at_uniform_color by assumption;
        fold V; lia. }
    rewrite E. 
    assert (Ei : pix !! i = Some (input_at w pix (y_of w (Z.of_nat i))
                   (x_of w (Z.of_nat i)) (c_of (Z.of_nat i)))).
    { unfold input_at. rewrite Hidx, Nat2Z.id.
      destruct (lookup_lt_is_Some_2 pix i ltac:(lia)) as [v ->].
      reflexivity. }
    rewrite Ei. f_equal. unfold pix.
    rewrite input_at_uniform_color by (assumption || lia). reflexivity.
  - rewrite lookup_seqZ_ge by lia. symmetry. apply lookup_ge_None. lia.
Qed.

Lemma blur_uniform_color_witness :
  blur 2 2 255 (uniform_color (Z.to_nat (2 * 2)) 255 128 0)
    [1; 2; 3; 4; 5; 6; 7; 8; 9; 10; 11; 12]
  = Ok (uniform_color (Z.to_nat (2 * 2)) 255 128 0).
Proof.
  apply (blur_uniform_color 2 2 255 255 128 0);
    [lia|lia|lia|unfold MAX_VALS; lia|lia|lia|lia|reflexivity].
Defined.

(** *** The kernel is a product *)

Lemma weight_product (kx ky : Z) :
  is_offset kx -> is_offset ky -> weight kx ky = kernel1 kx * kernel1 ky.
Proof.
  unfold is_offset. intros Hx Hy.
  assert (Ex : kx = -2 \/ kx = -1 \/ kx = 0 \/ kx = 1 \/ kx = 2) by lia.
  assert (Ey : ky = -2 \/ ky = -1 \/ ky = 0 \/ ky = 1 \/ ky = 2) by lia.
  destruct Ex as [->|[->|[->|[->| ->]]]];
    destruct Ey as [->|[->|[->|[->| ->]]]]; reflexivity.
Qed.

(** X17: the kernel is the product of the weights 1 2 3 2 1 with
    themselves, and the accumulator of lines 112-121 is a vertical pass
    over a horizontal pass with these weights. *)
Theorem accumulate_separable (img : image) (x y c : Z) :
  valid_image img ->
  0 <= x < width img -> 0 <= y < height img -> 0 <= c < 3 ->
  (forall kx ky, is_offset kx -> is_offset ky ->
     K_at (ky + 2) (kx + 2) = kernel1 kx * kernel1 ky)
  /\ accumulate (width img) (height img) (channels img) y x c
     = Ok (sumZ (fun ky =>
                   kernel1 ky
                   * sumZ (fun kx =>
                             kernel1 kx
                             * input_at (width img) (channels img)
                                 (clamp (y + ky) 0 (height img - 1))
                                 (clamp (x + kx) 0 (width img - 1)) c)
                          offsets)
                offsets).
Proof.
  destruct img as [w h maxv pix]. cbn [width height max_value channels].
  intros Hv Hx Hy Hc. split; [exact weight_product|].
  rewrite (accumulate_sum w h maxv pix Hv) by assumption.
  rewrite sum_range_reference. f_equal.
  unfold reference_acc, offsets, sumZ.
  cbn [list_prod map app foldr].
  rewrite !weight_product by (unfold is_offset; lia).
  unfold kernel1. cbn [Z.abs]. ring.
Qed.

Lemma accumulate_separable_witness :
  (forall kx ky, is_offset kx -> is_offset ky ->
     K_at (ky + 2) (kx + 2) = kernel1 kx * kernel1 ky)
  /\ accumulate 2 1 [10; 20; 30; 200; 100; 0] 0 1 2
     = Ok (sumZ (fun ky =>
                   kernel1 ky
                   * sumZ (fun kx =>
                             kernel1 kx
                             * input_at 2 [10; 20; 30; 200; 100; 0]
                                 (clamp (0 + ky) 0 (1 - 1))
                                 (clamp (1 + kx) 0 (2 - 1)) 2)
                          offsets)
                offsets).
Proof.
  apply (accumulate_separable (Image 2 1 255 [10; 20; 30; 200; 100; 0])
           1 0 2); [prove_valid|cbn; lia..].
Defined.

(** ** More on [read_int] *)

Lemma skip_blanks_skippable (b s : stream) :
  skippable b -> skip_blanks (b ++ s) = skip_blanks s.
Proof.
  induction 1 as [|ch b Hch _ IH|c b Hc _ IH].
  - reflexivity.
  - cbn [app]. rewrite skip_blanks_space by exact Hch. exact IH.
  - rewrite <- app_assoc. rewrite (skip_blanks_comment c _ Hc). exact IH.
Qed.

Lemma skip_comment_open (c : list ascii) :
  no_newline c -> skip_comment c = None.
Proof.
  induction 1 as [|ch c Hch _ IH]; [reflexivity|].
  cbn [skip_comment]. rewrite Hch. exact IH.
Qed.

Lemma blank_to_end_space (ch : ascii) (s : stream) :
  isspace ch = true -> blank_to_end s -> blank_to_end (ch :: s).
Proof.
  intros Hch [H|(b & c & -> & Hb & Hc)].
  - left. constructor; assumption.
  - right. exists (ch :: b), c. repeat split; [|exact Hc].
    constructor; assumption.
Qed.

Lemma blank_to_end_comment (c : list ascii) (s : stream) :
  no_newline c -> blank_to_end s -> blank_to_end (comment c ++ s).
Proof.
  intros Hc [H|(b & c' & -> & Hb & Hc')].
  - left. constructor; assumption.
  - right. exists (comment c ++ b), c'. rewrite <- app_assoc.
    repeat split; [|exact Hc']. constructor; assumption.
Qed.

Lemma skip_blanks_none (s : stream) :
  (skip_blanks s = None -> blank_to_end s)
  /\ (forall c, no_newline c ->
        match skip_comment s with
        | Some t => skip_blanks t
        | None => None
        end = None ->
        blank_to_end (HASH :: c ++ s)).
Proof.
  induction s as [|ch s [IH1 IH2]]; split.
  - intros _. left. constructor.
  - intros c Hc _. right. exists [], c. rewrite app_nil_r.
    repeat split; [constructor|exact Hc].
  - rewrite skip_blanks_cons. destruct (isspace ch) eqn:Hsp.
    + intros H. apply blank_to_end_space; auto.
    + destruct (Ascii.eqb ch HASH) eqn:Hh; [|discriminate].
      apply Ascii.eqb_eq in Hh. subst ch. intros H.
      apply (IH2 [] (List.Forall_nil _) H).
  - intros c Hc. cbn [skip_comment].
    destruct (Ascii.eqb ch NL) eqn:Hn.
    + apply Ascii.eqb_eq in Hn. subst ch. intros H.
      change (HASH :: c ++ NL :: s) with (HASH :: c ++ [NL] ++ s).
      rewrite app_assoc.
      apply (blank_to_end_comment c s Hc). auto.
    + intros H.
      replace (HASH :: c ++ ch :: s) with (HASH :: (c ++ [ch]) ++ s)
        by (rewrite <- app_assoc; reflexivity).
      apply IH2; [|exact H].
      apply Forall_app. split; [exact Hc|]. repeat constructor. exact Hn.
Qed.

Lemma blank_to_end_skip (s : stream) :
  blank_to_end s -> skip_blanks s = None.
Proof.
  intros [H|(b & c & -> & Hb & Hc)].
  - rewrite <- (app_nil_r s). rewrite skip_blanks_skippable by exact H.
    reflexivity.
  - rewrite skip_blanks_skippable by exact Hb.
    rewrite skip_blanks_cons.
    change (isspace HASH) with false. change (Ascii.eqb HASH HASH) with true.
    cbv iota. rewrite skip_comment_open by exact Hc. reflexivity.
Qed.

(** X2: [read_int] returns 0 (end of file) exactly on a stream made of
    white space and comments only, the last comment possibly cut by the
    end of the file. *)
Theorem read_int_end_of_file (s : stream) :
  (exists r, read_int s = Ok (None, r)) <-> blank_to_end s.
Proof.
  split.
  - intros (r & H). apply (proj1 (skip_blanks_none s)).
    unfold read_int in H. destruct (skip_blanks s) as [t|]; [|reflexivity].
    destruct (fscanf_d t) as [[v t']|]; discriminate.
  - intros H. exists []. unfold read_int.
    rewrite (blank_to_end_skip s H). reflexivity.
Qed.

Lemma read_int_skippable (b s : stream) :
  skippable b -> read_int (b ++ s) = read_int s.
Proof.
  intros H. unfold read_int. rewrite skip_blanks_skippable by exact H.
  reflexivity.
Qed.

(** X3: white space and complete comments in front of a stream do not
    change what [read_int] returns. *)
Theorem read_int_skips (b s : stream) :
  skippable b -> read_int (b ++ s) = read_int s.
Proof. apply read_int_skippable. Qed.

Lemma read_int_skips_witness :
  read_int ((SP :: comment (str " width") ++ [NL; SP]) ++ str "12 7")
  = read_int (str "12 7").
Proof.
  apply (read_int_skips (SP :: comment (str " width") ++ [NL; SP])
           (str "12 7")).
  apply skippable_space; [reflexivity|].
  apply skippable_comment; [repeat constructor|].
  apply skippable_space; [reflexivity|].
  apply skippable_space; [reflexivity|]. apply skippable_nil.
Defined.

Lemma scan_digits_some (s : stream) (n : Z) :
  exists m t, scan_digits (Some n) s = (Some m, t).
Proof.
  revert n. induction s as [|ch s IH]; intros n; [eauto|].
  cbn [scan_digits]. destruct (isdigit ch); [apply IH|eauto].
Qed.

Lemma scan_digits_none (s : stream) :
  (exists t, scan_digits None s = (None, t)) <-> starts_with_digit s = false.
Proof.
  destruct s as [|ch s]; cbn [scan_digits starts_with_digit].
  - split; eauto.
  - destruct (isdigit ch).
    + split; [|discriminate]. intros (t & H).
      destruct (scan_digits_some s (10 * default 0 None + digit_val ch))
        as (m & t' & E).
      rewrite E in H. discriminate.
    + split; eauto.
Qed.

(** X4: behind white space and comments, [read_int] fails exactly when
    the next token does not start with a digit, after an optional sign;
    its only error is [MalformedInteger]. *)
Theorem read_int_malformed (b : stream) (ch : ascii) (s : stream) :
  skippable b -> isspace ch = false -> Ascii.eqb ch HASH = false ->
  (read_int (b ++ ch :: s) = Err MalformedInteger
   <-> starts_with_digit (after_sign ch s) = false)
  /\ (forall e, read_int (b ++ ch :: s) = Err e -> e = MalformedInteger).
Proof.
  intros Hb Hsp Hh. rewrite read_int_skippable by exact Hb.
  unfold read_int. rewrite skip_blanks_cons, Hsp, Hh.
  assert (E : fscanf_d (ch :: s)
              = match scan_digits None (after_sign ch s) with
                | (Some n, s2) =>
                    Some (store_int (if Ascii.eqb ch MINUS then - n else n), s2)
                | (None, _) => None
                end).
  { unfold fscanf_d, after_sign. cbn [skip_spaces]. rewrite Hsp.
    destruct (Ascii.eqb ch MINUS); [reflexivity|].
    destruct (Ascii.eqb ch PLUS); reflexivity. }
  rewrite E. split.
  - rewrite <- scan_digits_none.
    destruct (scan_digits None (after_sign ch s)) as [[n|] t].
    + split; [discriminate|]. intros (t' & H). discriminate.
    + split; eauto.
  - intros e. destruct (scan_digits None (after_sign ch s)) as [[n|] t];
      [discriminate|]. intros H. injection H as <-. reflexivity.
Qed.

Lemma read_int_malformed_witness :
  (read_int ([NL] ++ chr 65 :: str " B")
   = Err MalformedInteger
   <-> starts_with_digit (after_sign (chr 65) (str " B")) = false)
  /\ (forall e, read_int ([NL] ++ chr 65 :: str " B") = Err e ->
        e = MalformedInteger).
Proof.
  apply (read_int_malformed [NL] (chr 65) (str " B"));
    [|reflexivity|reflexivity].
  apply skippable_space; [reflexivity|apply skippable_nil].
Defined.

(** X5: [read_int] on the decimal text of any [int], negative ones
    included, followed by something that is not a digit, returns that
    integer and leaves what follows. *)
Theorem read_int_signed (b : stream) (v : Z) (q : stream) :
  skippable b -> is_int v -> ends_token q = true ->
  read_int (b ++ print_int v ++ q) = Ok (Some v, q).
Proof.
  intros Hb Hv Hq. rewrite read_int_skippable by exact Hb.
  unfold is_int, INT_MIN, INT_MAX in Hv.
  destruct (Z.ltb_spec v 0) as [Hneg|Hpos].
  - unfold print_int. destruct (Z.ltb_spec v 0); [|lia].
    unfold read_int. cbn [app]. rewrite skip_blanks_cons.
    change (isspace MINUS) with false.
    change (Ascii.eqb MINUS HASH) with false. cbv iota.
    unfold fscanf_d. cbn [skip_spaces].
    change (isspace MINUS) with false. cbv iota.
    change (Ascii.eqb MINUS MINUS) with true. cbv iota.
    rewrite scan_print_nat by (lia || assumption).
    rewrite store_int_small by (unfold is_int, INT_MIN, INT_MAX; lia).
    f_equal. f_equal. f_equal. lia.
  - apply read_int_print; [unfold INT_MAX; lia|exact Hq].
Qed.

Lemma read_int_signed_witness :
  read_int ([SP] ++ print_int (-2147483648) ++ str "-7")
  = Ok (Some (-2147483648), str "-7").
Proof.
  apply (read_int_signed [SP] (-2147483648) (str "-7")).
  - apply skippable_space; [reflexivity|apply skippable_nil].
  - unfold is_int, INT_MIN, INT_MAX. lia.
  - reflexivity.
Defined.

(** ** More on the header parser *)

Lemma check_header_dimensions (w h maxv : Z) :
  w <= 0 \/ h <= 0 -> check_header w h maxv = Err InvalidDimensions.
Proof.
  intros H. unfold check_header.
  destruct (Z.leb_spec w 0); [reflexivity|].
  destruct (Z.leb_spec h 0); [reflexivity|]. lia.
Qed.

Lemma check_header_max_value (w h maxv : Z) :
  0 < w -> 0 < h -> maxv <= 0 \/ 65535 < maxv ->
  check_header w h maxv = Err InvalidMaxValue.
Proof.
  intros Hw Hh H. unfold check_header.
  destruct (Z.leb_spec w 0); [lia|]. destruct (Z.leb_spec h 0); [lia|].
  cbn [orb]. destruct (Z.leb_spec maxv 0); [reflexivity|].
  destruct (Z.gtb_spec maxv 65535); [reflexivity|]. lia.
Qed.

(** X6: the checks of lines 79-83 on two [int]s and a max value, with
    the 64-bit product wrapping around: when they pass and which error
    each failure gives, in the order of the tests. *)
Theorem check_header_cases (w h maxv : Z) :
  is_int w -> is_int h ->
  (forall n,
     check_header w h maxv = Ok n
     <-> 0 < w /\ 0 < h /\ 1 <= maxv <= 65535 /\ w * h * 3 <= MAX_VALS
         /\ n = w * h * 3)
  /\ (check_header w h maxv = Err InvalidDimensions <-> w <= 0 \/ h <= 0)
  /\ (check_header w h maxv = Err InvalidMaxValue
      <-> 0 < w /\ 0 < h /\ (maxv <= 0 \/ 65535 < maxv))
  /\ (check_header w h maxv = Err ImageTooLarge
      <-> 0 < w /\ 0 < h /\ 1 <= maxv <= 65535 /\ MAX_VALS < w * h * 3).
Proof.
  intros Hw Hh. unfold is_int, INT_MIN in Hw, Hh.
  destruct (Z_le_gt_dec w 0) as [Hw0|Hw0];
    [|destruct (Z_le_gt_dec h 0) as [Hh0|Hh0]].
  1,2: rewrite check_header_dimensions by lia;
       repeat split; intros; try discriminate; try lia; auto.
  destruct (Z_le_gt_dec maxv 0) as [Hm0|Hm0];
    [|destruct (Z_le_gt_dec maxv 65535) as [Hm1|Hm1]].
  1,3: rewrite check_header_max_value by lia;
       repeat split; intros; try discriminate; try lia; auto.
  destruct (Z_le_gt_dec (w * h * 3) MAX_VALS) as [Hs|Hs].
  - rewrite check_header_valid by lia.
    repeat split; intros; try discriminate; try lia; auto.
    + congruence.
    + f_equal. lia.
  - rewrite check_header_too_large by lia.
    repeat split; intros; try discriminate; try lia; auto.
Qed.

Lemma check_header_cases_witness :
  (forall n,
     check_header 70000 1000 255 = Ok n
     <-> 0 < 70000 /\ 0 < 1000 /\ 1 <= 255 <= 65535
         /\ 70000 * 1000 * 3 <= MAX_VALS /\ n = 70000 * 1000 * 3)
  /\ (check_header 70000 1000 255 = Err InvalidDimensions
      <-> 70000 <= 0 \/ 1000 <= 0)
  /\ (check_header 70000 1000 255 = Err InvalidMaxValue
      <-> 0 < 70000 /\ 0 < 1000 /\ (255 <= 0 \/ 65535 < 255))
  /\ (check_header 70000 1000 255 = Err ImageTooLarge
      <-> 0 < 70000 /\ 0 < 1000 /\ 1 <= 255 <= 65535
          /\ MAX_VALS < 70000 * 1000 * 3).
Proof.
  apply (check_header_cases 70000 1000 255);
    unfold is_int, INT_MIN, INT_MAX; lia.
Defined.

Lemma skip_spaces_nil (s : stream) :
  skip_spaces s = [] <-> Forall (fun ch => isspace ch = true) s.
Proof.
  induction s as [|ch s IH]; cbn [skip_spaces].
  - split; [constructor|reflexivity].
  - destruct (isspace ch) eqn:Hch.
    + rewrite IH. split; [constructor; assumption|].
      intros H. apply Forall_cons in H as [_ H]. exact H.
    + split; [discriminate|]. intros H. apply Forall_cons in H as [H _].
      congruence.
Qed.

Lemma read_int_err (s : stream) (e : error) :
  read_int s = Err e -> e = MalformedInteger.
Proof.
  unfold read_int. destruct (skip_blanks s) as [t|]; [|discriminate].
  destruct (fscanf_d t) as [[v t']|]; [discriminate|].
  intros H. injection H as <-. reflexivity.
Qed.

Lemma need_int_err (e : error) (s : stream) (e' : error) :
  need_int e s = Err e' -> e' = e \/ e' = MalformedInteger.
Proof.
  unfold need_int. destruct (read_int s) as [[[v|] t]|e1] eqn:E; cbn.
  - discriminate.
  - intros H. injection H as <-. left. reflexivity.
  - intros H. injection H as <-. right. exact (read_int_err _ _ E).
Qed.

Lemma check_header_err (w h maxv : Z) (e : error) :
  check_header w h maxv = Err e ->
  e = InvalidDimensions \/ e = InvalidMaxValue \/ e = ImageTooLarge.
Proof.
  unfold check_header.
  destruct ((w <=? 0) || (h <=? 0)); [intros H; injection H as <-; auto|].
  destruct ((maxv <=? 0) || (maxv >? 65535));
    [intros H; injection H as <-; auto|].
  cbv zeta.
  destruct ((nvals_of w h <=? 0) || (nvals_of w h >? MAX_VALS));
    [intros H; injection H as <-; auto|discriminate].
Qed.

(** The part of [read_header] behind the format tag. *)
Lemma read_header_body_err (s : stream) (e : error) :
  (let* (w, s) := need_int TruncatedHeader s in
   let* (h, s) := need_int TruncatedHeader s in
   let* (maxv, s) := need_int TruncatedHeader s in
   let* _ := check_header w h maxv in
   Ok (w, h, maxv, s)) = Err e ->
  e = TruncatedHeader \/ e = MalformedInteger \/ e = InvalidDimensions
  \/ e = InvalidMaxValue \/ e = ImageTooLarge.
Proof.
  destruct (need_int TruncatedHeader s) as [[w s1]|e1] eqn:E1; cbn [bind];
    [|intros H; injection H as <-;
      destruct (need_int_err _ _ _ E1); auto].
  destruct (need_int TruncatedHeader s1) as [[h s2]|e2] eqn:E2; cbn [bind];
    [|intros H; injection H as <-;
      destruct (need_int_err _ _ _ E2); auto].
  destruct (need_int TruncatedHeader s2) as [[m s3]|e3] eqn:E3; cbn [bind];
    [|intros H; injection H as <-;
      destruct (need_int_err _ _ _ E3); auto].
  destruct (check_header w h m) as [n|e4] eqn:E4; cbn [bind];
    [discriminate|].
  intros H. injection H as <-.
  destruct (check_header_err _ _ _ _ E4) as [?|[?|?]]; auto.
Qed.

Lemma read_header_err (s : stream) (e : error) :
  read_header s = Err e ->
  e = CouldNotReadHeader \/ e = UnsupportedFormat \/ e = TruncatedHeader
  \/ e = MalformedInteger \/ e = InvalidDimensions \/ e = InvalidMaxValue
  \/ e = ImageTooLarge.
Proof.
  unfold read_header.
  destruct (fscanf_2s s) as [[magic t]|]; cbn [of_option bind];
    [|intros H; injection H as <-; auto].
  destruct (negb (strcmp_eq (c_string magic) (str "P3")));
    [intros H; injection H as <-; auto|].
  intros H. apply read_header_body_err in H. intuition auto.
Qed.

(** X7: the header parser fails with [CouldNotReadHeader] exactly on a
    file of white space only (the empty file included). *)
Theorem read_header_blank (s : stream) :
  read_header s = Err CouldNotReadHeader
  <-> Forall (fun ch => isspace ch = true) s.
Proof.
  rewrite <- skip_spaces_nil. unfold read_header, fscanf_2s.
  destruct (skip_spaces s) as [|a t].
  - split; reflexivity.
  - split; [|discriminate]. intros H. exfalso.
    destruct t as [|b t']; [|destruct (isspace b)];
      cbn [of_option bind] in H;
      match type of H with
      | (if ?c then _ else _) = _ =>
          destruct c; [discriminate|];
          apply read_header_body_err in H;
          intuition discriminate
      end.
Qed.

Lemma tag_P3 (a b : ascii) :
  strcmp_eq (c_string [a; b]) (str "P3") = true
  <-> a = "P"%char /\ b = "3"%char.
Proof.
  split.
  - cbn [c_string]. destruct (code a =? 0); [discriminate|].
    destruct (code b =? 0); cbn; rewrite ?andb_false_r; try discriminate.
    destruct (Ascii.eqb_spec a "P"); [|discriminate].
    destruct (Ascii.eqb_spec b "3"); [|discriminate]. auto.
  - intros [-> ->]. reflexivity.
Qed.

Lemma tag_short (a : ascii) :
  strcmp_eq (c_string [a]) (str "P3") = false.
Proof.
  cbn [c_string]. destruct (code a =? 0); [reflexivity|].
  cbn. apply andb_false_r.
Qed.

(** X8: behind leading white space, the parser fails with
    [UnsupportedFormat] exactly when the first two characters are not
    [P3]; white space between the tag and the width is not needed. *)
Theorem read_header_tag (ws : list ascii) (a : ascii) (r : stream) :
  Forall (fun ch => isspace ch = true) ws -> isspace a = false ->
  (read_header (ws ++ a :: r) = Err UnsupportedFormat
   <-> ~ (a = "P"%char /\ exists r', r = "3"%char :: r')).
Proof.
  intros Hws Ha. unfold read_header, fscanf_2s.
  rewrite skip_spaces_blank by exact Hws. cbn [skip_spaces]. rewrite Ha.
  destruct r as [|b r'].
  - cbn [of_option bind]. rewrite tag_short. cbn [negb]. split; [|reflexivity].
    intros _ (_ & r' & H). discriminate.
  - destruct (isspace b) eqn:Hb; cbn [of_option bind].
    + rewrite tag_short. cbn [negb]. split; [|reflexivity].
      intros _ (_ & r'' & H). injection H as -> _. discriminate.
    + destruct (strcmp_eq (c_string [a; b]) (str "P3")) eqn:Ht; cbn [negb].
      * apply tag_P3 in Ht as [-> ->]. split.
        -- intros H. apply read_header_body_err in H. intuition discriminate.
        -- intros H. exfalso. apply H. eauto.
      * split; [|reflexivity]. intros _ (-> & r'' & H).
        injection H as -> _.
        assert (strcmp_eq (c_string ["P"%char; "3"%char]) (str "P3") = true)
          by reflexivity.
        congruence.
Qed.

Lemma read_header_tag_witness :
  read_header ([NL] ++ "P"%char :: str "6 2 2 255") = Err UnsupportedFormat
  <-> ~ ("P"%char = "P"%char /\ exists r', str "6 2 2 255" = "3"%char :: r').
Proof.
  apply (read_header_tag [NL] "P"%char (str "6 2 2 255")).
  - repeat constructor.
  - reflexivity.
Defined.

(** X9: behind the tag, the parser fails with [TruncatedHeader] exactly
    when the stream ends before the third integer, and with
    [MalformedInteger] exactly when one of the first three tokens is not
    an integer. *)
Theorem read_header_truncated (ws : list ascii) (s : stream) :
  Forall (fun ch => isspace ch = true) ws ->
  (read_header (ws ++ "P"%char :: "3"%char :: s) = Err TruncatedHeader
   <-> exists vs, read_tokens 3 s = (vs, EndOfFile))
  /\ (read_header (ws ++ "P"%char :: "3"%char :: s) = Err MalformedInteger
      <-> exists vs, read_tokens 3 s = (vs, Malformed)).
Proof.
  intros Hws. unfold read_header.
  rewrite (fscanf_2s_tag ws "P"%char "3"%char s Hws eq_refl eq_refl).
  cbn [of_option bind].
  change (negb (strcmp_eq (c_string _) _)) with false. cbv iota.
  unfold need_int. cbn [read_tokens].
  destruct (read_int s) as [[[v1|] s1]|e1] eqn:E1; cbn [bind].
  2: { split; split; intros; eauto; try discriminate.
       destruct H as (vs & H). discriminate. }
  2: { apply read_int_err in E1. subst e1.
       split; split; intros; eauto; try discriminate.
       destruct H as (vs & H). discriminate. }
  destruct (read_int s1) as [[[v2|] s2]|e2] eqn:E2; cbn [bind].
  2: { split; split; intros; eauto; try discriminate.
       destruct H as (vs & H). discriminate. }
  2: { apply read_int_err in E2. subst e2.
       split; split; intros; eauto; try discriminate.
       destruct H as (vs & H). discriminate. }
  destruct (read_int s2) as [[[v3|] s3]|e3] eqn:E3; cbn [bind].
  2: { split; split; intros; eauto; try discriminate.
       destruct H as (vs & H). discriminate. }
  2: { apply read_int_err in E3. subst e3.
       split; split; intros; eauto; try discriminate.
       destruct H as (vs & H). discriminate. }
  destruct (check_header v1 v2 v3) as [n|e] eqn:Ec; cbn [bind].
  - split; split; intros H; try discriminate;
      destruct H as (vs & H); discriminate.
  - apply check_header_err in Ec.
    split; split; intros H; try (destruct H as (vs & H); discriminate);
      injection H as ->; intuition discriminate.
Qed.

Lemma read_header_truncated_witness :
  (read_header ([SP] ++ "P"%char :: "3"%char :: str " 4 4") = Err TruncatedHeader
   <-> exists vs, read_tokens 3 (str " 4 4") = (vs, EndOfFile))
  /\ (read_header ([SP] ++ "P"%char :: "3"%char :: str " 4 4")
      = Err MalformedInteger
      <-> exists vs, read_tokens 3 (str " 4 4") = (vs, Malformed)).
Proof.
  apply (read_header_truncated [SP] (str " 4 4")). repeat constructor.
Defined.

(** ** More on the whole program *)

Lemma read_loop_err (maxv : Z) (n : nat) :
  forall (done rest : list Z) (s : stream) (e : error),
    (n <= length rest)%nat ->
    for_loop n (Z.of_nat (length done)) (read_pixel_step maxv)
      (done ++ rest, s) = Err e ->
    e = UnexpectedEndOfData \/ e = PixelOutOfRange \/ e = MalformedInteger.
Proof.
  induction n as [|n IH]; intros done rest s e Hlen H; [discriminate|].
  destruct rest as [|r rest]; [cbn in Hlen; lia|].
  cbn [for_loop read_pixel_step] in H.
  destruct (read_int s) as [[[v|] t]|e1] eqn:Hr; cbn [bind] in H.
  - destruct ((v <? 0) || (v >? maxv)); [injection H as <-; auto|].
    rewrite store_middle in H. cbn [bind] in H.
    replace (Z.of_nat (length done) + 1)
      with (Z.of_nat (length (done ++ [v]))) in H
      by (rewrite length_app; cbn [length]; lia).
    apply IH in H; [exact H|cbn in Hlen; lia].
  - injection H as <-. auto.
  - injection H as <-. apply read_int_err in Hr. auto.
Qed.

Lemma read_loop_err_buffer (maxv : Z) (n : nat) :
  forall (done rest1 rest2 : list Z) (s : stream) (e : error),
    (n <= length rest1)%nat -> (n <= length rest2)%nat ->
    for_loop n (Z.of_nat (length done)) (read_pixel_step maxv)
      (done ++ rest1, s) = Err e ->
    for_loop n (Z.of_nat (length done)) (read_pixel_step maxv)
      (done ++ rest2, s) = Err e.
Proof.
  induction n as [|n IH]; intros done rest1 rest2 s e Hl1 Hl2 H;
    [discriminate|].
  destruct rest1 as [|r1 rest1]; [cbn in Hl1; lia|].
  destruct rest2 as [|r2 rest2]; [cbn in Hl2; lia|].
  cbn [for_loop read_pixel_step] in H |- *.
  destruct (read_int s) as [[[v|] t]|e1] eqn:Hr; cbn [bind] in H |- *;
    try exact H.
  destruct ((v <? 0) || (v >? maxv)); [exact H|].
  rewrite store_middle in H |- *. cbn [bind] in H |- *.
  replace (Z.of_nat (length done) + 1)
    with (Z.of_nat (length (done ++ [v]))) in H |- *
    by (rewrite length_app; cbn [length]; lia).
  apply (IH _ rest1); [cbn in Hl1; lia|cbn in Hl2; lia|exact H].
Qed.

Lemma read_pixels_buffer (nvals maxv : Z) (buf1 buf2 : list Z) (s : stream) :
  length buf1 = Z.to_nat nvals -> length buf2 = Z.to_nat nvals ->
  read_pixels nvals maxv buf1 s = read_pixels nvals maxv buf2 s.
Proof.
  intros H1 H2.
  destruct (read_pixels nvals maxv buf1 s) as [[pix s']|e] eqn:E.
  - symmetry. apply (read_pixels_success nvals maxv buf2 s pix s' H2).
    apply (read_pixels_success nvals maxv buf1 s pix s' H1). exact E.
  - symmetry. rewrite read_pixels_unfold in E |- *.
    apply (read_loop_err_buffer maxv (Z.to_nat nvals) [] buf1 buf2);
      [lia|lia|exact E].
Qed.

Lemma read_image_err (pix_mem out_mem : option (nat -> Z)) (input : stream)
    (e : error) :
  read_image pix_mem out_mem input = Err e ->
  e <> InvalidAccess.
Proof.
  unfold read_image.
  destruct (read_header input) as [[[[w h] maxv] s]|e1] eqn:Hh; cbn [bind].
  - destruct pix_mem as [f|]; [|intros H; injection H as <-; discriminate].
    destruct out_mem as [g|]; [|intros H; injection H as <-; discriminate].
    cbn [malloc].
    destruct (read_pixels _ _ _ s) as [[pix s']|e2] eqn:Hp; cbn [bind];
      [discriminate|].
    intros H. injection H as <-. rewrite read_pixels_unfold in Hp.
    apply (read_loop_err maxv _ []) in Hp.
    + intuition (subst; discriminate).
    + rewrite length_map, length_seq. lia.
  - intros H. injection H as <-. apply read_header_err in Hh.
    intuition (subst; discriminate).
Qed.

(** X10: whatever the input file and the results of [malloc], the
    program never reads or writes outside a buffer. *)
Theorem main_memory_safe (pix_mem out_mem : option (nat -> Z))
    (input : stream) :
  main pix_mem out_mem input <> Err InvalidAccess.
Proof.
  destruct (read_image pix_mem out_mem input) as [[img outpix]|e] eqn:E.
  - destruct (main_completes _ _ _ _ _ E) as (text & ->). discriminate.
  - unfold main. rewrite E. cbn [bind]. intros H. injection H as ->.
    exact (read_image_err _ _ _ _ E eq_refl).
Qed.

Lemma blur_image_buffer (img : image) (out1 out2 : list Z) :
  valid_image img ->
  length out1 = length (channels img) ->
  length out2 = length (channels img) ->
  blur_image img out1 = blur_image img out2.
Proof.
  destruct img as [w h maxv pix]. cbn [channels]. intros Hv H1 H2.
  unfold blur_image. cbn [width height max_value channels].
  rewrite (blur_reference w h maxv pix Hv out1 H1).
  rewrite (blur_reference w h maxv pix Hv out2 H2). reflexivity.
Qed.

(** X11: the result of the program does not depend on what the
    [malloc]ed buffers hold before they are written. *)
Theorem main_ignores_fresh_memory (f g f' g' : nat -> Z) (input : stream) :
  main (Some f) (Some g) input = main (Some f') (Some g') input.
Proof.
  unfold main.
  destruct (read_image (Some f) (Some g) input) as [[img o]|e] eqn:E.
  - pose proof (read_image_valid _ _ _ _ _ E) as [Hv Hl].
    assert (E' : read_image (Some f') (Some g') input
                 = Ok (img, map g' (seq 0 (length o)))).
    { unfold read_image in E |- *.
      destruct (read_header input) as [[[[w h] maxv] s]|e1]; [|discriminate].
      cbn [bind malloc] in E |- *.
      rewrite (read_pixels_buffer _ _ _
                 (map f (seq 0 (Z.to_nat (nvals_of w h)))))
        by (rewrite length_map, length_seq; reflexivity).
      destruct (read_pixels _ _ _ s) as [[pix s']|e2]; [|discriminate].
      cbn [bind] in E |- *. injection E as <- <-.
      rewrite length_map, length_seq. reflexivity. }
    rewrite E'. cbn [bind].
    rewrite (blur_image_buffer img o (map g' (seq 0 (length o))) Hv Hl)
      by (rewrite length_map, length_seq; exact Hl).
    reflexivity.
  - assert (E' : read_image (Some f') (Some g') input = Err e).
    { unfold read_image in E |- *.
      destruct (read_header input) as [[[[w h] maxv] s]|e1];
        [|exact E].
      cbn [bind malloc] in E |- *.
      rewrite (read_pixels_buffer _ _ _
                 (map f (seq 0 (Z.to_nat (nvals_of w h)))))
        by (rewrite length_map, length_seq; reflexivity).
      destruct (read_pixels _ _ _ s) as [[pix s']|e2]; [discriminate|].
      exact E. }
    rewrite E'. reflexivity.
Qed.

Lemma read_image_serialized (img : image) (f g : nat -> Z) :
  valid_image img ->
  read_image (Some f) (Some g)
    (print_header (width img) (height img) (max_value img)
     ++ body_text (channels img))
  = Ok (img, map g (seq 0 (length (channels img)))).
Proof.
  intros Hv. destruct img as [w h maxv pix].
  pose proof (valid_width _ Hv) as Hw. pose proof (valid_height _ Hv) as Hh.
  pose proof (valid_max_value _ Hv) as Hm. pose proof (valid_size _ Hv) as Hs.
  pose proof (valid_length _ Hv) as Hl.
  pose proof (valid_channels _ Hv) as Hc.
  cbn [width height max_value channels] in *.
  unfold read_image. rewrite read_header_print by assumption. cbn [bind].
  destruct (size_guard w h) as [_ Heq];
    [unfold INT_MAX, MAX_VALS in *; nia..|].
  rewrite (Heq Hs). cbn [malloc].
  destruct (reads_values_text pix 0 NL
              (if Z.of_nat (length pix) mod per_line =? 0 then [] else [NL])
              eq_refl) as (s' & Hr).
  { eapply Forall_impl; [exact Hc|]. unfold in_range, INT_MAX. intros v Hv'.
    lia. }
  fold (body_text pix) in Hr.
  rewrite (proj2 (read_pixels_success (w * h * 3) maxv
                    (map f (seq 0 (Z.to_nat (w * h * 3))))
                    (NL :: body_text pix) pix s'
                    ltac:(rewrite length_map, length_seq; reflexivity)))
    by (split; [exact Hr|split; assumption]).
  cbn [bind]. rewrite Hl. reflexivity.
Qed.

Lemma blur_image_valid (img out : image) (outpix : list Z) :
  valid_image img -> length outpix = length (channels img) ->
  blur_image img outpix = Ok out ->
  valid_image out.
Proof.
  destruct img as [w h maxv pix]. cbn [channels]. intros Hv Hl H.
  unfold blur_image in H. cbn [width height max_value channels] in H.
  destruct (blur_in_range w h maxv pix outpix Hv Hl)
    as (o & Hb & Hlo & Hin).
  rewrite Hb in H. cbn [bind] in H. injection H as <-.
  constructor; cbn [width height max_value channels];
    try apply Hv; [|exact Hin].
  rewrite Hlo. apply Hv.
Qed.

(** X18: what the program writes is a file that the program reads: it
    parses to the blurred image, and a second run on it completes. *)
Theorem main_output_readable (pix_mem out_mem : option (nat -> Z))
    (f g : nat -> Z) (input : stream) (text : list ascii) :
  main pix_mem out_mem input = Ok text ->
  exists img outpix out,
    read_image pix_mem out_mem input = Ok (img, outpix)
    /\ blur_image img outpix = Ok out
    /\ read_image (Some f) (Some g) text
       = Ok (out, map g (seq 0 (length (channels out))))
    /\ exists text', main (Some f) (Some g) text = Ok text'.
Proof.
  unfold main. intros H.
  apply bind_ok in H as ([img outpix] & Hread & H).
  apply bind_ok in H as (out & Hblur & Hser).
  exists img, outpix, out. split; [exact Hread|]. split; [exact Hblur|].
  apply read_image_valid in Hread as [Hv Hl].
  pose proof (blur_image_valid img out outpix Hv Hl Hblur) as Hvo.
  rewrite (serialize_text out Hvo) in Hser. injection Hser as <-.
  pose proof (read_image_serialized out f g Hvo) as E.
  split; [exact E|]. exact (main_completes _ _ _ _ _ E).
Qed.

Lemma main_output_readable_witness :
  exists img outpix out,
    read_image (Some (fun _ => 0)) (Some (fun _ => 0))
      (str "P3 2 1 255 1 2 3 4 5 6") = Ok (img, outpix)
    /\ blur_image img outpix = Ok out
    /\ read_image (Some (fun _ => 1)) (Some (fun _ => 2))
         (str "P3
2 1
255
2 3 4 3 4 5 
") = Ok (out, map (fun _ => 2) (seq 0 (length (channels out))))
    /\ exists text',
         main (Some (fun _ => 1)) (Some (fun _ => 2))
           (str "P3
2 1
255
2 3 4 3 4 5 
") = Ok text'.
Proof.
  apply (main_output_readable (Some (fun _ => 0)) (Some (fun _ => 0))
           (fun _ => 1) (fun _ => 2) (str "P3 2 1 255 1 2 3 4 5 6")).
  vm_compute. reflexivity.
Defined.

(** ** The end of the output *)

Lemma values_text_last (vals : list Z) :
  forall c, vals <> [] ->
    last (values_text c vals)
    = Some (separator (c + Z.of_nat (length vals))).
Proof.
  induction vals as [|v vals IH]; intros c Hne; [congruence|].
  cbn [values_text]. rewrite last_app, last_cons.
  destruct vals as [|v' vals].
  - cbn [values_text last length]. reflexivity.
  - rewrite IH by discriminate.
    f_equal. f_equal. cbn [length]. lia.
Qed.

(** X19: the text written for a valid image ends with a newline. *)
Theorem serialize_ends_with_newline (img : image) (text : list ascii) :
  valid_image img ->
  serialize img = Ok text ->
  last text = Some NL.
Proof.
  intros Hv H. rewrite (serialize_text img Hv) in H.
  assert (E : text = print_header (width img) (height img) (max_value img)
                     ++ body_text (channels img)) by congruence.
  rewrite E. clear H E.
  assert (Hne : channels img <> []).
  { intros E. pose proof (valid_length _ Hv) as Hl. rewrite E in Hl.
    pose proof (valid_width _ Hv). pose proof (valid_height _ Hv).
    cbn [length] in Hl. nia. }
  rewrite last_app. unfold body_text. rewrite last_app.
  destruct (Z.of_nat (length (channels img)) mod per_line =? 0) eqn:Hm.
  - cbn [last]. rewrite values_text_last by exact Hne.
    rewrite Z.add_0_l. unfold separator. rewrite Hm. reflexivity.
  - reflexivity.
Qed.

Lemma serialize_ends_with_newline_witness :
  last (str "P3
1 1
255
1 2 3 
") = Some NL.
Proof.
  apply (serialize_ends_with_newline (Image 1 1 255 [1; 2; 3]));
    [prove_valid|reflexivity].
Defined.

(** ** Data behind the last pixel value *)

Section Trailing.

Variables (c : ascii) (t : stream).
Hypothesis Hc : isspace c = true.

Lemma skip_blanks_trail (u : stream) :
  (forall r, skip_blanks (u ++ [c]) = Some r ->
     exists ch r', r = ch :: r' ++ [c] /\ isspace ch = false
       /\ skip_blanks (u ++ c :: t) = Some (ch :: r' ++ c :: t))
  /\ (forall r,
        match skip_comment (u ++ [c]) with
        | Some x => skip_blanks x
        | None => None
        end = Some r ->
        exists ch r', r = ch :: r' ++ [c] /\ isspace ch = false
          /\ match skip_comment (u ++ c :: t) with
             | Some x => skip_blanks x
             | None => None
             end = Some (ch :: r' ++ c :: t)).
Proof.
  induction u as [|ch u [IH1 IH2]]; split; intros r.
  - cbn [app]. rewrite skip_blanks_cons, Hc. discriminate.
  - cbn [app skip_comment]. destruct (Ascii.eqb c NL); discriminate.
  - cbn [app]. rewrite !skip_blanks_cons.
    destruct (isspace ch) eqn:Hsp; [apply IH1|].
    destruct (Ascii.eqb ch HASH); [apply IH2|].
    intros H. injection H as <-. exists ch, u. auto.
  - cbn [app skip_comment].
    destruct (Ascii.eqb ch NL); [apply IH1|apply IH2].
Qed.

Lemma scan_digits_trail (u : stream) :
  forall (acc a : option Z) (r : stream),
    scan_digits acc (u ++ [c]) = (a, r) ->
    exists r', r = r' ++ [c]
      /\ scan_digits acc (u ++ c :: t) = (a, r' ++ c :: t).
Proof.
  assert (Hd : isdigit c = false).
  { destruct (isdigit c) eqn:E; [|reflexivity].
    destruct (digit_not_blank c E) as (Hs & _). congruence. }
  induction u as [|ch u IH]; intros acc a r.
  - cbn [app scan_digits]. rewrite Hd. intros H. injection H as <- <-.
    exists []. auto.
  - cbn [app scan_digits]. destruct (isdigit ch); [apply IH|].
    intros H. injection H as <- <-. exists (ch :: u). auto.
Qed.

Lemma fscanf_d_trail (ch : ascii) (u : stream) (v : Z) (r : stream) :
  isspace ch = false ->
  fscanf_d (ch :: u ++ [c]) = Some (v, r) ->
  exists r', r = r' ++ [c]
    /\ fscanf_d (ch :: u ++ c :: t) = Some (v, r' ++ c :: t).
Proof.
  intros Hsp. unfold fscanf_d. cbn [skip_spaces]. rewrite Hsp.
  destruct (Ascii.eqb ch MINUS); [|destruct (Ascii.eqb ch PLUS)].
  - destruct (scan_digits None (u ++ [c])) as [[n|] r0] eqn:E;
      [|discriminate].
    intros H. injection H as <- <-.
    destruct (scan_digits_trail u _ _ _ E) as (r' & -> & ->). eauto.
  - destruct (scan_digits None (u ++ [c])) as [[n|] r0] eqn:E;
      [|discriminate].
    intros H. injection H as <- <-.
    destruct (scan_digits_trail u _ _ _ E) as (r' & -> & ->). eauto.
  - destruct (scan_digits None (ch :: u ++ [c])) as [[n|] r0] eqn:E;
      [|discriminate].
    intros H. injection H as <- <-.
    destruct (scan_digits_trail (ch :: u) _ _ _ E) as (r' & -> & E').
    cbn [app] in E'. rewrite E'. eauto.
Qed.

Lemma read_int_trail (u : stream) (v : Z) (r : stream) :
  read_int (u ++ [c]) = Ok (Some v, r) ->
  exists r', r = r' ++ [c]
    /\ read_int (u ++ c :: t) = Ok (Some v, r' ++ c :: t).
Proof.
  unfold read_int.
  destruct (skip_blanks (u ++ [c])) as [r0|] eqn:E; [|discriminate].
  destruct (proj1 (skip_blanks_trail u) r0 E) as (ch & r1 & -> & Hsp & ->).
  destruct (fscanf_d (ch :: r1 ++ [c])) as [[v0 r2]|] eqn:Ef; [|discriminate].
  intros H. injection H as <- <-.
  destruct (fscanf_d_trail ch r1 _ _ Hsp Ef) as (r' & -> & ->). eauto.
Qed.

Lemma need_int_trail (e : error) (u : stream) (v : Z) (r : stream) :
  need_int e (u ++ [c]) = Ok (v, r) ->
  exists r', r = r' ++ [c] /\ need_int e (u ++ c :: t) = Ok (v, r' ++ c :: t).
Proof.
  unfold need_int. intros H.
  apply bind_ok in H as ([[v0|] r0] & Hr & H); [|discriminate].
  injection H as <- <-.
  destruct (read_int_trail u _ _ Hr) as (r' & -> & ->). eauto.
Qed.

Lemma read_loop_trail (maxv : Z) (n : nat) :
  forall (i : Z) (buf pix : list Z) (u r : stream),
    for_loop n i (read_pixel_step maxv) (buf, u ++ [c]) = Ok (pix, r) ->
    exists r',
      for_loop n i (read_pixel_step maxv) (buf, u ++ c :: t)
      = Ok (pix, r' ++ c :: t).
Proof.
  induction n as [|n IH]; intros i buf pix u r H.
  - cbn in H |- *. injection H as <- <-. eauto.
  - cbn [for_loop] in H |- *.
    apply bind_ok in H as ([buf1 s1] & Hs & H).
    unfold read_pixel_step in Hs |- *.
    apply bind_ok in Hs as ([[v|] r0] & Hr & Hs); [|discriminate].
    destruct (read_int_trail u _ _ Hr) as (r1 & -> & ->). cbn [bind].
    destruct ((v <? 0) || (v >? maxv)); [discriminate|].
    destruct (store buf i v) as [b|e]; [|discriminate].
    cbn [bind] in Hs |- *. injection Hs as <- <-.
    exact (IH _ _ _ _ _ H).
Qed.

Lemma skip_spaces_trail (u : stream) (a : ascii) (r : stream) :
  skip_spaces (u ++ [c]) = a :: r ->
  exists r', r = r' ++ [c] /\ skip_spaces (u ++ c :: t) = a :: r' ++ c :: t.
Proof.
  induction u as [|ch u IH].
  - cbn [app skip_spaces]. rewrite Hc. discriminate.
  - cbn [app skip_spaces]. destruct (isspace ch); [exact IH|].
    intros H. injection H as <- <-. eauto.
Qed.

Lemma fscanf_2s_trail (u : stream) (m : list ascii) (r : stream) :
  fscanf_2s (u ++ [c]) = Some (m, r) ->
  exists r', r = r' ++ [c] /\ fscanf_2s (u ++ c :: t) = Some (m, r' ++ c :: t).
Proof.
  unfold fscanf_2s.
  destruct (skip_spaces (u ++ [c])) as [|a r0] eqn:E; [discriminate|].
  destruct (skip_spaces_trail u a r0 E) as (r1 & -> & ->).
  destruct r1 as [|b r1]; cbn [app].
  - rewrite Hc. intros H. injection H as <- <-. exists []. auto.
  - destruct (isspace b); intros H; injection H as <- <-.
    + exists (b :: r1). auto.
    + exists r1. auto.
Qed.

Lemma read_header_trail (u : stream) (w h maxv : Z) (r : stream) :
  read_header (u ++ [c]) = Ok (w, h, maxv, r) ->
  exists r', r = r' ++ [c]
    /\ read_header (u ++ c :: t) = Ok (w, h, maxv, r' ++ c :: t).
Proof.
  unfold read_header. intros H.
  apply bind_ok in H as ([m r0] & Hm & H).
  destruct (fscanf_2s (u ++ [c])) as [[m' r0']|] eqn:Ef; [|discriminate].
  cbn [of_option] in Hm. injection Hm as -> ->.
  destruct (fscanf_2s_trail u _ _ Ef) as (r1 & -> & ->).
  cbn [of_option bind].
  destruct (negb (strcmp_eq (c_string m) (str "P3"))); [discriminate|].
  apply bind_ok in H as ([w' s1] & Hw & H).
  destruct (need_int_trail _ _ _ _ Hw) as (r2 & -> & ->). cbn [bind].
  apply bind_ok in H as ([h' s2] & Hh & H).
  destruct (need_int_trail _ _ _ _ Hh) as (r3 & -> & ->). cbn [bind].
  apply bind_ok in H as ([m' s3] & Hv & H).
  destruct (need_int_trail _ _ _ _ Hv) as (r4 & -> & ->). cbn [bind].
  destruct (check_header w' h' m') as [n|e]; [|discriminate].
  cbn [bind] in H |- *. injection H as <- <- <- <-. eauto.
Qed.

End Trailing.

(** X12: once a file that ends with a white space character is read
    successfully, anything appended to it is ignored: the image and the
    output are the same. *)
Theorem trailing_data_ignored (pix_mem out_mem : option (nat -> Z))
    (a : stream) (c : ascii) (t : stream) :
  isspace c = true ->
  (forall r, read_image pix_mem out_mem (a ++ [c]) = Ok r ->
     read_image pix_mem out_mem (a ++ c :: t) = Ok r)
  /\ (forall text, main pix_mem out_mem (a ++ [c]) = Ok text ->
        main pix_mem out_mem (a ++ c :: t) = Ok text).
Proof.
  intros Hc.
  assert (Hread : forall r, read_image pix_mem out_mem (a ++ [c]) = Ok r ->
                    read_image pix_mem out_mem (a ++ c :: t) = Ok r).
  { intros r. unfold read_image. intros H.
    apply bind_ok in H as ([[[w h] maxv] s] & Hh & H).
    destruct (read_header_trail c t Hc a _ _ _ _ Hh) as (r1 & -> & ->).
    cbn [bind].
    destruct (malloc pix_mem (nvals_of w h)) as [pix|]; [|discriminate].
    destruct (malloc out_mem (nvals_of w h)) as [outpix|]; [|discriminate].
    apply bind_ok in H as ([p s'] & Hp & H).
    unfold read_pixels, for_range in Hp |- *.
    destruct (read_loop_trail c t Hc maxv _ _ _ _ _ _ Hp) as (r2 & E2).
    unfold stream in *. rewrite E2. exact H. }
  split; [exact Hread|].
  intros text. unfold main. intros H.
  apply bind_ok in H as (r & Hr & H). rewrite (Hread r Hr). exact H.
Qed.

Lemma trailing_data_ignored_witness :
  (forall r,
     read_image (Some (fun _ => 0)) (Some (fun _ => 0))
       (str "P3 1 1 9 1 2 3" ++ [NL]) = Ok r ->
     read_image (Some (fun _ => 0)) (Some (fun _ => 0))
       (str "P3 1 1 9 1 2 3" ++ NL :: str "4 5 x") = Ok r)
  /\ (forall text,
        main (Some (fun _ => 0)) (Some (fun _ => 0))
          (str "P3 1 1 9 1 2 3" ++ [NL]) = Ok text ->
        main (Some (fun _ => 0)) (Some (fun _ => 0))
          (str "P3 1 1 9 1 2 3" ++ NL :: str "4 5 x") = Ok text).
Proof.
  apply (trailing_data_ignored (Some (fun _ => 0)) (Some (fun _ => 0))
           (str "P3 1 1 9 1 2 3") NL (str "4 5 x")).
  reflexivity.
Defined.

(** ** The process *)

Lemma error_exit_ok (a b c : string) (msg : string) :
  outcome_ok [a; b; c] (error_exit msg).
Proof.
  unfold outcome_ok, error_exit. cbn [status stderr out_file length].
  repeat split; intros; try discriminate; try lia; auto.
  - destruct H as (text & H). discriminate.
  - eauto.
Qed.

Lemma error_errno_ok (a b c : string) (msg reason : string) :
  outcome_ok [a; b; c] (error_errno msg reason).
Proof.
  unfold outcome_ok, error_errno. cbn [status stderr out_file length].
  repeat split; intros; try discriminate; try lia; auto.
  - destruct H as (text & H). discriminate.
  - exists (str msg ++ str ": " ++ str reason).
    rewrite <- !app_assoc. reflexivity.
Qed.

Lemma usage_ok (argv : list string) :
  length argv <> 3%nat ->
  outcome_ok argv
    (Outcome 2 (str "Error: Usage: blur input.ppm output.ppm" ++ [NL]) None).
Proof.
  intros Hl. unfold outcome_ok. cbn [status stderr out_file].
  repeat split; intros; try discriminate; try lia; auto.
  - destruct H as (text & H). discriminate.
  - exists (str "Usage: blur input.ppm output.ppm"). reflexivity.
Qed.

(** X20: a run exits with 2 exactly on a wrong number of arguments and
    else with 0 or 1; it exits with 0 exactly when it has opened the
    output file for writing and exactly when [stderr] is empty; every
    failure writes one line [Error: ...] and leaves the output file
    untouched.  Once the output file is open, failing writes are not
    reported: the exit status and [stderr] do not depend on what the
    writes store, and the file holds what is stored of the text that
    [main] computes, the text itself when every write succeeds. *)
Theorem run_outcome (fopen_in : string -> stream + string)
    (fopen_out : string -> option string)
    (stored : list ascii -> list ascii)
    (pix_mem out_mem : option (nat -> Z)) (argv : list string) :
  outcome_ok argv (run fopen_in fopen_out stored pix_mem out_mem argv)
  /\ (forall content,
        out_file (run fopen_in fopen_out stored pix_mem out_mem argv)
        = Some content
        <-> exists prog in_path out_path input text,
              argv = [prog; in_path; out_path]
              /\ fopen_in in_path = inl input
              /\ fopen_out out_path = None
              /\ main pix_mem out_mem input = Ok text
              /\ content = stored text)
  /\ (forall stored',
        status (run fopen_in fopen_out stored' pix_mem out_mem argv)
        = status (run fopen_in fopen_out stored pix_mem out_mem argv)
        /\ stderr (run fopen_in fopen_out stored' pix_mem out_mem argv)
           = stderr (run fopen_in fopen_out stored pix_mem out_mem argv)).
Proof.
  unfold run.
  destruct argv as [|a [|b [|c [|d argv]]]];
    try (split; [apply usage_ok; cbn [length]; lia|];
         split; [|intros stored'; split; reflexivity];
         intros content; split; [discriminate|];
         intros (p & i & o & inp & txt & H & _); discriminate).
  destruct (fopen_in b) as [input|reason] eqn:Ein.
  2: { split; [apply error_errno_ok|].
       split; [|intros stored'; split; reflexivity].
       intros content. split; [discriminate|].
       intros (p & i & o & inp & txt & H & Hi & _). injection H as -> -> ->.
       congruence. }
  unfold main.
  destruct (read_image pix_mem out_mem input) as [[img outpix]|e] eqn:Er;
    cbn [bind].
  2: { split; [apply error_exit_ok|].
       split; [|intros stored'; split; reflexivity].
       intros content. split; [discriminate|].
       intros (p & i & o & inp & txt & H & Hi & _ & Hm & _).
       injection H as -> -> ->.
       rewrite Ein in Hi. injection Hi as <-. rewrite Er in Hm.
       discriminate. }
  destruct (blur_image img outpix) as [out|e] eqn:Eb.
  2: { split; [apply error_exit_ok|].
       split; [|intros stored'; split; reflexivity].
       intros content. split; [discriminate|].
       intros (p & i & o & inp & txt & H & Hi & _ & Hm & _).
       injection H as -> -> ->.
       rewrite Ein in Hi. injection Hi as <-. rewrite Er in Hm.
       cbn [bind] in Hm. rewrite Eb in Hm. discriminate. }
  destruct (fopen_out c) as [reason|] eqn:Eout.
  { split; [apply error_errno_ok|].
    split; [|intros stored'; split; reflexivity].
    intros content. split; [discriminate|].
    intros (p & i & o & inp & txt & H & _ & Ho & _). injection H as -> -> ->.
    congruence. }
  pose proof (read_image_valid _ _ _ _ _ Er) as [Hv Hl].
  pose proof (blur_image_valid img out outpix Hv Hl Eb) as Hvo.
  rewrite (serialize_text out Hvo).
  split; [|split; [|intros stored'; split; reflexivity]].
  - unfold outcome_ok. cbn [status stderr out_file length].
    repeat split; intros; try discriminate; try lia; eauto.
  - cbn [out_file]. intros content. split.
    + intros H. injection H as <-.
      exists a, b, c, input. eexists. repeat split; try assumption.
      rewrite Er. cbn [bind]. rewrite Eb. cbn [bind].
      apply serialize_text. exact Hvo.
    + intros (p & i & o & inp & txt & H & Hi & _ & Hm & ->).
      injection H as -> -> ->.
      rewrite Ein in Hi. injection Hi as <-. rewrite Er in Hm.
      cbn [bind] in Hm. rewrite Eb in Hm. cbn [bind] in Hm.
      rewrite (serialize_text out Hvo) in Hm. congruence.
Qed.

(** ** Locality of the blur *)

Lemma sample_near (n x k : Z) :
  0 < n -> 0 <= x < n -> -2 <= k <= 2 ->
  x - 2 <= clamp (x + k) 0 (n - 1) <= x + 2.
Proof.
  intros Hn Hx Hk. unfold clamp.
  destruct (Z.ltb_spec (x + k) 0); [lia|].
  destruct (Z.gtb_spec (x + k) (n - 1)); lia.
Qed.

(** X16: a channel value of the output depends only on the values of
    the same channel at most two pixels away in each direction. *)
Theorem blur_local (w h maxv : Z) (pix1 pix2 out1 out2 : list Z)
    (x y c : Z) :
  valid_image (Image w h maxv pix1) ->
  valid_image (Image w h maxv pix2) ->
  length out1 = length pix1 -> length out2 = length pix2 ->
  0 <= x < w -> 0 <= y < h -> 0 <= c < 3 ->
  (forall x' y', 0 <= x' < w -> 0 <= y' < h ->
     x - 2 <= x' <= x + 2 -> y - 2 <= y' <= y + 2 ->
     input_at w pix1 y' x' c = input_at w pix2 y' x' c) ->
  exists res1 res2,
    blur w h maxv pix1 out1 = Ok res1
    /\ blur w h maxv pix2 out2 = Ok res2
    /\ res1 !! Z.to_nat (pixel_index w x y c)
       = res2 !! Z.to_nat (pixel_index w x y c).
Proof.
  intros Hv1 Hv2 Hl1 Hl2 Hx Hy Hc Hsame.
  pose proof (blur_reference w h maxv pix1 Hv1 out1 Hl1) as Hb1.
  pose proof (blur_reference w h maxv pix2 Hv2 out2 Hl2) as Hb2.
  eexists. eexists. split; [exact Hb1|]. split; [exact Hb2|].
  rewrite (blur_at w h maxv pix1 out1 _ x y c Hv1 Hl1 Hb1 Hx Hy Hc).
  rewrite (blur_at w h maxv pix2 out2 _ x y c Hv2 Hl2 Hb2 Hx Hy Hc).
  f_equal. unfold reference_pixel, reference_rounded. f_equal. f_equal.
  f_equal. rewrite !reference_acc_pairs.
  apply (sumZ_ext _ _ _ _ offsets_in_range). intros [kx ky] [Hkx Hky].
  cbn [fst snd] in *. unfold is_offset in *. f_equal.
  pose proof (valid_width _ Hv1) as Hw. pose proof (valid_height _ Hv1) as Hh.
  cbn [width height] in Hw, Hh.
  destruct (sample_coords w h x y kx ky) as [Hsx Hsy]; try assumption.
  apply Hsame; try assumption.
  - apply sample_near; assumption.
  - apply sample_near; assumption.
Qed.

Lemma blur_local_witness :
  exists res1 res2,
    blur 4 1 255 [1; 2; 3; 4; 5; 6; 7; 8; 9; 10; 11; 12]
      (replicate 12 0) = Ok res1
    /\ blur 4 1 255 [1; 2; 3; 4; 5; 6; 7; 8; 9; 200; 0; 12]
         (replicate 12 0) = Ok res2
    /\ res1 !! Z.to_nat (pixel_index 4 0 0 2)
       = res2 !! Z.to_nat (pixel_index 4 0 0 2).
Proof.
  apply (blur_local 4 1 255 [1; 2; 3; 4; 5; 6; 7; 8; 9; 10; 11; 12]
           [1; 2; 3; 4; 5; 6; 7; 8; 9; 200; 0; 12]);
    [prove_valid|prove_valid|reflexivity|reflexivity|lia|lia|lia|].
  intros x' y' Hx' Hy' Hnx Hny.
  assert (y' = 0) by lia.
  assert (Ex : x' = 0 \/ x' = 1 \/ x' = 2) by lia.
  subst y'. destruct Ex as [->|[->| ->]]; reflexivity.
Defined.
